(** * LLM-File-Storage-Organizer: the notebook's own logic, embedded in Rocq

    The repository is one notebook, [main.ipynb].  Its own logic is a prompt
    template ([format]), a tokenization wrapper ([tokenize]), the cell that
    chooses the model directory, the cell that loads tokenizer and model, and
    the answer extraction of [runExample].  Everything else is a call into a
    library (transformers, peft, datasets); such calls appear here as
    parameters or as records that carry the attributes the notebook reads and
    writes. *)

From Stdlib Require Import NArith ZArith Lia.
From stdpp Require Import base option list strings gmap.

Set Default Proof Using "Type".
Local Open Scope nat_scope.

(** ** Python values used by the notebook *)

(** A Python [str] is a sequence of Unicode code points. *)
Abbreviation char := N (only parsing).
Abbreviation str := (list N) (only parsing).

(** ASCII literals of the notebook, written as Rocq strings. *)
Definition lit (s : string) : str :=
  List.map Ascii.N_of_ascii (String.list_ascii_of_string s).

(** The escape [\n]. *)
Definition nl : str := [10%N].

(** The exceptions the notebook's own expressions can raise, and the
    exceptions of a library call, which the notebook never catches. *)
Inductive exn : Type :=
  | NameError
  | KeyError (key : str)
  | IndexError
  | ValueError
  | LibraryError (code : nat).

Inductive result (A : Type) : Type :=
  | Ok (a : A)
  | Raise (e : exn).
Arguments Ok {A} a.
Arguments Raise {A} e.

Global Instance result_ret : MRet result := fun _ a => Ok a.
Global Instance result_bind : MBind result := fun _ _ f m =>
  match m with
  | Ok a => f a
  | Raise e => Raise e
  end.

(** [d[k]] on a dict. *)
Definition getitem (d : gmap str str) (k : str) : result str :=
  match d !! k with
  | Some v => Ok v
  | None => Raise (KeyError k)
  end.

(** [l[i]] on a list, for a non-negative index. *)
Definition index {A} (l : list A) (i : nat) : result A :=
  match l !! i with
  | Some v => Ok v
  | None => Raise IndexError
  end.

(** ** Prompt formatter *)

(** A row of the dataset: column name to cell text. *)
Abbreviation Example := (gmap (list N) (list N)) (only parsing).

Definition col_instruction : str := lit "English understanding".
Definition col_output : str := lit "Shell script".

(** The pieces of an f-string: literal text and replacement fields that
    subscript the example. *)
Inductive fpiece : Type :=
  | FLit (s : str)
  | FField (key : str).

Fixpoint fstring (ps : list fpiece) (example : Example) : result str :=
  match ps with
  | [] => Ok []
  | FLit s :: ps' => rest ← fstring ps' example; mret (s ++ rest)
  | FField k :: ps' =>
      v ← getitem example k;
      rest ← fstring ps' example;
      mret (v ++ rest)
  end.

(** [def format(example)] *)
Definition format (example : Example) : result str :=
  fstring [ FLit (lit "### Instruction:" ++ nl);
            FField col_instruction;
            FLit (nl ++ nl ++ lit "### Output:" ++ nl);
            FField col_output ] example.

(** ** String methods *)

(** [s.startswith(p)] *)
Fixpoint startswith (p s : str) : bool :=
  match p, s with
  | [], _ => true
  | _ :: _, [] => false
  | a :: p', b :: s' => (a =? b)%N && startswith p' s'
  end.

(** [s.find(sub)]: the lowest index where [sub] starts, [None] for -1. *)
Fixpoint find (sub s : str) : option nat :=
  if startswith sub s then Some 0
  else match s with
       | [] => None
       | _ :: s' => S <$> find sub s'
       end.

(** The loop of [str.split] for a non-empty separator: search, cut, go on
    after the separator.  [fuel] bounds the number of cuts. *)
Fixpoint split_loop (fuel : nat) (sep s : str) : list str :=
  match fuel with
  | 0 => [s]
  | S fuel' =>
      match find sep s with
      | None => [s]
      | Some i => take i s :: split_loop fuel' sep (drop (i + length sep) s)
      end
  end.

(** [s.split(sep)]; an empty separator is a [ValueError]. *)
Definition split (sep s : str) : result (list str) :=
  match sep with
  | [] => Raise ValueError
  | _ :: _ => Ok (split_loop (length s) sep s)
  end.

(** [c.isspace()] on one code point: the code points Python's Unicode
    database marks as whitespace. *)
Definition isspace (c : char) : bool :=
  ((9 <=? c) && (c <=? 13) || (28 <=? c) && (c <=? 32)
   || (c =? 133) || (c =? 160) || (c =? 5760)
   || (8192 <=? c) && (c <=? 8202)
   || (c =? 8232) || (c =? 8233) || (c =? 8239) || (c =? 8287)
   || (c =? 12288))%N.

Fixpoint lstrip (s : str) : str :=
  match s with
  | [] => []
  | c :: s' => if isspace c then lstrip s' else s
  end.

Definition rstrip (s : str) : str := reverse (lstrip (reverse s)).

(** [s.strip()] *)
Definition strip (s : str) : str := rstrip (lstrip s).

(** [sep.join(parts)] *)
Fixpoint join (sep : str) (parts : list str) : str :=
  match parts with
  | [] => []
  | [p] => p
  | p :: ps => p ++ sep ++ join sep ps
  end.

(** [s.replace(old, new)] for a non-empty [old]: every non-overlapping
    occurrence, left to right. *)
Definition replace (old new s : str) : str :=
  join new (split_loop (length s) old s).

(** ** The tokenizer object *)

(** The notebook obtains its tokenizer from [AutoTokenizer.from_pretrained];
    the object belongs to the transformers library.  The record carries the
    attributes the notebook reads or writes and those that decide padding and
    truncation: the notebook never assigns [padding_side] or
    [truncation_side], so they keep the values the loaded tokenizer came
    with. *)
Inductive side : Type := SideLeft | SideRight.

Record Tokenizer : Type := {
  encode : str → list Z;            (* text to ids, special tokens included *)
  decode : list Z → bool → str;     (* ids to text, [skip_special_tokens] *)
  convert_tokens_to_ids : str → Z;
  eos_token : option str;
  pad_token : option str;
  padding_side : side;
  truncation_side : side;
  model_max_length : nat;
}.

(** [tokenizer.pad_token_id] *)
Definition pad_token_id (tk : Tokenizer) : option Z :=
  convert_tokens_to_ids tk <$> pad_token tk.

(** [tokenizer.pad_token = v] *)
Definition set_pad_token (v : option str) (tk : Tokenizer) : Tokenizer :=
  {| encode := encode tk; decode := decode tk;
     convert_tokens_to_ids := convert_tokens_to_ids tk;
     eos_token := eos_token tk; pad_token := v;
     padding_side := padding_side tk;
     truncation_side := truncation_side tk;
     model_max_length := model_max_length tk |}.

Record BatchEncoding : Type := {
  input_ids : list Z;
  attention_mask : list Z;
}.

(** The value of the keyword [padding]. *)
Inductive padding_strategy : Type := DoNotPad | PadMaxLength.

(** [truncation=True]: more than [max_length] ids are cut on the
    tokenizer's truncation side. *)
Definition truncate_ids (sd : side) (max_length : nat) (ids : list Z)
  : list Z :=
  match sd with
  | SideRight => take max_length ids
  | SideLeft => drop (length ids - max_length) ids
  end.

(** [padding="max_length"]: fewer than [max_length] ids are filled up with
    the pad id on the tokenizer's padding side; the mask is 0 on the fill. *)
Definition pad_encoding (sd : side) (max_length : nat) (pad_id : Z)
    (ids : list Z) : BatchEncoding :=
  let fill := max_length - length ids in
  match sd with
  | SideRight =>
      {| input_ids := ids ++ replicate fill pad_id;
         attention_mask := replicate (length ids) 1%Z ++ replicate fill 0%Z |}
  | SideLeft =>
      {| input_ids := replicate fill pad_id ++ ids;
         attention_mask := replicate fill 0%Z ++ replicate (length ids) 1%Z |}
  end.

(** [tokenizer(text, truncation=..., padding=..., max_length=...)], after
    the library's documentation of these keywords; a [max_length] left out
    is the tokenizer's [model_max_length].  Asking for padding on a
    tokenizer without pad token is a [ValueError]. *)
Definition tokenizer_call (tk : Tokenizer) (text : str) (truncation : bool)
    (padding : padding_strategy) (max_length : option nat)
  : result BatchEncoding :=
  let max_length := default (model_max_length tk) max_length in
  let ids := encode tk text in
  let ids := if truncation then truncate_ids (truncation_side tk) max_length ids
             else ids in
  match padding with
  | DoNotPad =>
      Ok {| input_ids := ids; attention_mask := replicate (length ids) 1%Z |}
  | PadMaxLength =>
      match pad_token_id tk with
      | None => Raise ValueError
      | Some pad_id => Ok (pad_encoding (padding_side tk) max_length pad_id ids)
      end
  end.

(** ** The running notebook *)

Inductive device : Type := cuda | cpu.

(** The keywords of the remote [AutoModelForCausalLM.from_pretrained]. *)
Record model_options : Type := {
  torch_dtype_float16 : bool;
  device_map_auto : bool;
  trust_remote_code : bool;
  use_safetensors : bool;
}.

(** What the notebook does to the world outside its own values, oldest
    first. *)
Inductive event : Type :=
  | EvPrint (line : str)
  | EvSetEnviron (key value : str)
  | EvSetPadToken (value : option str)
  | EvTokenizerCall (pad_seen : option str) (text : str)
  | EvLoadTokenizer (source : str) (device_map : option device)
  | EvLoadModel (source : str) (options : option model_options).

Record Proc : Type := {
  ismount : str → bool;             (* [os.path.ismount] *)
  path_exists : str → bool;         (* [os.path.exists] *)
  environ : gmap (list N) (list N); (* [os.environ] *)
  tokenizer : option Tokenizer;     (* the global [tokenizer], once bound *)
  trace : list event;
}.

Definition with_environ (env : gmap (list N) (list N)) (p : Proc) : Proc :=
  {| ismount := ismount p; path_exists := path_exists p; environ := env;
     tokenizer := tokenizer p; trace := trace p |}.

Definition with_tokenizer (tk : option Tokenizer) (p : Proc) : Proc :=
  {| ismount := ismount p; path_exists := path_exists p;
     environ := environ p; tokenizer := tk; trace := trace p |}.

Definition with_event (e : event) (p : Proc) : Proc :=
  {| ismount := ismount p; path_exists := path_exists p;
     environ := environ p; tokenizer := tokenizer p;
     trace := trace p ++ [e] |}.

(** A statement of the notebook: it yields a value or raises, and leaves the
    process as it is at that point.  Nothing in the notebook catches an
    exception, so a raise ends the cell. *)
Definition M (A : Type) : Type := Proc → result A * Proc.

Global Instance M_ret : MRet M := fun _ a p => (Ok a, p).
Global Instance M_bind : MBind M := fun _ _ f m p =>
  match m p with
  | (Ok a, p') => f a p'
  | (Raise e, p') => (Raise e, p')
  end.

Definition emit (e : event) : M unit := fun p => (Ok tt, with_event e p).

Definition lift {A} (r : result A) : M A := fun p => (r, p).

Definition os_path_ismount (path : str) : M bool := fun p =>
  (Ok (ismount p path), p).

Definition os_path_exists (path : str) : M bool := fun p =>
  (Ok (path_exists p path), p).

(** [os.environ[key] = value] *)
Definition environ_set (key value : str) : M unit := fun p =>
  (Ok tt, with_event (EvSetEnviron key value)
            (with_environ (<[key := value]> (environ p)) p)).

Definition print (line : str) : M unit := emit (EvPrint line).

(** Reading the global [tokenizer]. *)
Definition get_tokenizer : M Tokenizer := fun p =>
  match tokenizer p with
  | Some tk => (Ok tk, p)
  | None => (Raise NameError, p)
  end.

(** ** Model resolver cell *)

Definition model_name : str := lit "deepseek-ai/deepseek-coder-1.3b-base".
Definition mount_point : str := lit "Seagate".

(** The cell that binds [model_dir], for any two globals [mount_point] and
    [model_name]; its value is the [model_dir] it binds. *)
Definition resolver_cell (mount_point model_name : str) : M str :=
  mounted ← os_path_ismount mount_point;
  if (mounted : bool) then
    _ ← print (lit "/Volume/" ++ mount_point ++ lit " is mounted.");
    let model_dir := lit "/Volumes/" ++ mount_point ++ lit "/VSWorkspace/"
                     ++ replace (lit "/") (lit "_") model_name in
    _ ← environ_set (lit "HF_HOME") model_dir;
    mret model_dir
  else
    _ ← print (lit "/Volume/" ++ mount_point ++ lit " is not mounted.");
    mret (lit "model").

(** ** Tokenization adapter *)

(** [tokenizer = v] *)
Definition bind_tokenizer (tk : Tokenizer) : M unit := fun p =>
  (Ok tt, with_tokenizer (Some tk) p).

(** [tokenizer.pad_token = v] on the global tokenizer. *)
Definition assign_pad_token (v : option str) : M unit :=
  tk ← get_tokenizer;
  _ ← emit (EvSetPadToken v);
  bind_tokenizer (set_pad_token v tk).

(** A call of the global tokenizer. *)
Definition call_tokenizer (text : str) (truncation : bool)
    (padding : padding_strategy) (max_length : option nat)
  : M BatchEncoding :=
  tk ← get_tokenizer;
  _ ← emit (EvTokenizerCall (pad_token tk) text);
  lift (tokenizer_call tk text truncation padding max_length).

(** [def tokenize(example)] *)
Definition tokenize (example : Example) : M BatchEncoding :=
  tk ← get_tokenizer;
  _ ← assign_pad_token (eos_token tk);
  text ← lift (format example);
  call_tokenizer text true PadMaxLength (Some 512).

(** [dataset.map(f)]: [f] on every row, in order. *)
Fixpoint dataset_map {B} (f : Example → M B) (rows : list Example)
  : M (list (Example * B)) :=
  match rows with
  | [] => mret []
  | row :: rows' =>
      b ← f row;
      rest ← dataset_map f rows';
      mret ((row, b) :: rest)
  end.

(** ** Answer extraction *)

Definition marker_output : str := lit "### Output:".
Definition marker_hashes : str := lit "###".

(** The expression that [runExample] binds to [main_output]. *)
Definition main_output (output_text : str) : result str :=
  parts ← split marker_output output_text;
  segment ← index parts 1;
  parts' ← split marker_hashes (strip segment);
  answer ← index parts' 0;
  mret (strip answer).

(** ** Cells that call the library *)

Definition remote_options : model_options :=
  {| torch_dtype_float16 := true; device_map_auto := true;
     trust_remote_code := true; use_safetensors := true |}.

Section Library.
(** The model object and the library entry points the notebook calls.
    Each may raise; a source is a directory or a model identifier. *)
Variable Model : Type.
Variable AutoTokenizer_from_pretrained :
  str → option device → result Tokenizer.
Variable AutoModelForCausalLM_from_pretrained :
  str → option model_options → result Model.
Variable generate : Model → BatchEncoding → nat → result (list (list Z)).

Definition load_tokenizer (source : str) (device_map : option device)
  : M Tokenizer :=
  _ ← emit (EvLoadTokenizer source device_map);
  lift (AutoTokenizer_from_pretrained source device_map).

Definition load_model (source : str) (options : option model_options)
  : M Model :=
  _ ← emit (EvLoadModel source options);
  lift (AutoModelForCausalLM_from_pretrained source options).

(** The cell that binds [tokenizer] and [model]; its value is the model. *)
Definition loader_cell (model_dir model_name : str) (dev : device)
  : M Model :=
  present ← os_path_exists model_dir;
  if (present : bool) then
    tk ← load_tokenizer model_dir None;
    _ ← bind_tokenizer tk;
    load_model model_dir None
  else
    tk ← load_tokenizer model_name (Some dev);
    _ ← bind_tokenizer tk;
    load_model model_name (Some remote_options).

(** The text [runExample] decodes from the generation for [prompt]. *)
Definition generated_text (model : Model) (prompt : str) : M str :=
  inputs ← call_tokenizer prompt false DoNotPad None;
  outputs ← lift (generate model inputs 50);
  first ← lift (index outputs 0);
  tk ← get_tokenizer;
  mret (decode tk first true).

(** [def runExample(prompt)], on the global [model]. *)
Definition runExample (model : Model) (prompt : str) : M str :=
  output_text ← generated_text model prompt;
  lift (main_output output_text).
End Library.

(** ** Loss curve cell *)

Section LossCurve.
(** The numbers the trainer logs; the cell only moves them around. *)
Context {V : Type}.

(** [log[key]] on one entry of [trainer.state.log_history]. *)
Definition log_getitem (log : gmap (list N) V) (key : str) : result V :=
  match log !! key with
  | Some v => Ok v
  | None => Raise (KeyError key)
  end.

(** [[log[key] for log in logs if cond in log]] *)
Fixpoint logged (key cond : str) (logs : list (gmap (list N) V))
  : result (list V) :=
  match logs with
  | [] => Ok []
  | log :: logs' =>
      if decide (is_Some (log !! cond)) then
        v ← log_getitem log key;
        rest ← logged key cond logs';
        mret (v :: rest)
      else logged key cond logs'
  end.

Definition steps (logs : list (gmap (list N) V)) : result (list V) :=
  logged (lit "step") (lit "loss") logs.

Definition losses (logs : list (gmap (list N) V)) : result (list V) :=
  logged (lit "loss") (lit "loss") logs.

(** The two sequences the cell hands to [plt.plot], bound in this order. *)
Definition loss_curve (logs : list (gmap (list N) V))
  : result (list V * list V) :=
  xs ← steps logs;
  ys ← losses logs;
  mret (xs, ys).
End LossCurve.

(** * Vocabulary of the properties *)

(** [sub in s] *)
Definition occurs (sub s : str) : Prop := ∃ a b, s = a ++ sub ++ b.

(** [sub] occurs in [a ++ sub ++ b] after [a], and nowhere further left. *)
Definition first_at (sub s a : str) : Prop :=
  (∃ b, s = a ++ sub ++ b) ∧
  ∀ a' b', s = a' ++ sub ++ b' → length a ≤ length a'.

(** The text in front of the first [sep], all of [s] when there is none:
    the first piece of [s.split(sep)]. *)
Definition before (sep s : str) : str :=
  match find sep s with
  | Some i => take i s
  | None => s
  end.

Definition all_space (s : str) : Prop := Forall (λ c, isspace c = true) s.

(** Neither the first nor the last character of [s] is whitespace. *)
Definition no_outer_space (s : str) : Prop :=
  (∀ c, head s = Some c → isspace c = false) ∧
  (∀ c, last s = Some c → isspace c = false).

Definition hash : char := 35%N.

(** What [replace('/', '_')] does to one character. *)
Definition slash_to_underscore (c : char) : char :=
  if (c =? 47)%N then 95%N else c.

(** The number of assignments to [tokenizer.pad_token] in a trace. *)
Fixpoint pad_assignments (tr : list event) : nat :=
  match tr with
  | [] => 0
  | EvSetPadToken _ :: tr' => S (pad_assignments tr')
  | _ :: tr' => pad_assignments tr'
  end.

(** The number of tokenizer calls in a trace. *)
Fixpoint tokenizer_calls (tr : list event) : nat :=
  match tr with
  | [] => 0
  | EvTokenizerCall _ _ :: tr' => S (tokenizer_calls tr')
  | _ :: tr' => tokenizer_calls tr'
  end.

(** A tokenizer call in the trace found the pad token [v]. *)
Definition call_sees_pad (v : option str) (e : event) : Prop :=
  match e with
  | EvTokenizerCall pad _ => pad = v
  | _ => True
  end.

(** What one call of [tokenize] on [text] adds to the trace when the
    end-of-sequence token is [eos]. *)
Definition tokenize_events (eos text : str) : list event :=
  [EvSetPadToken (Some eos); EvTokenizerCall (Some eos) text].

(** An event that loads from [source] without keywords. *)
Definition plain_load_from (source : str) (e : event) : Prop :=
  e = EvLoadTokenizer source None ∨ e = EvLoadModel source None.

(** The ids are [ids] filled up on the right with [pad_id] to length [n]. *)
Definition right_padded (n : nat) (pad_id : Z) (ids out : list Z) : Prop :=
  out = ids ++ replicate (n - length ids) pad_id.

(** The answer of the spec's extraction example. *)
Definition move_files : str := lit "MOVE_FILES".

(** The header of the prompt, up to the instruction. *)
Definition instruction_header : str := lit "### Instruction:" ++ nl.

(** A log entry that carries a loss, and the point it gives the curve. *)
Definition has_loss {V} (log : gmap (list N) V) : Prop :=
  is_Some (log !! lit "loss").

Definition curve_point {V} (log : gmap (list N) V) : option (V * V) :=
  x ← log !! lit "step"; y ← log !! lit "loss"; Some (x, y).

(** ** Sample values *)

(** A tokenizer whose ids are the code points, with an end-of-sequence token
    and no pad token, as a freshly loaded causal-LM tokenizer has. *)
Definition sample_tokenizer (padding : side) : Tokenizer :=
  {| encode := λ s, Z.of_N <$> s;
     decode := λ ids _, Z.to_N <$> ids;
     convert_tokens_to_ids := λ _, 1114112%Z;
     eos_token := Some (lit "<eos>");
     pad_token := None;
     padding_side := padding;
     truncation_side := SideRight;
     model_max_length := 2048 |}.

Definition sample_proc (padding : side) (mounted present : bool) : Proc :=
  {| ismount := λ _, mounted;
     path_exists := λ _, present;
     environ := ∅;
     tokenizer := Some (sample_tokenizer padding);
     trace := [] |}.

(** The drive is mounted at ["/Volumes/Seagate"] and the notebook runs in a
    directory that has no mount point named ["Seagate"]. *)
Definition sample_proc_drive_mounted : Proc :=
  {| ismount := λ path, bool_decide (path = lit "/Volumes/" ++ mount_point);
     path_exists := λ _, true;
     environ := ∅;
     tokenizer := None;
     trace := [] |}.

Definition sample_row : Example :=
  {[ col_instruction := lit "Move all files from A to B";
     col_output := lit "mv A/* B/" ]}.

(** A model that continues every prompt with [completion]. *)
Definition sample_generate (completion : str) (_ : unit)
    (inputs : BatchEncoding) (_ : nat) : result (list (list Z)) :=
  Ok [input_ids inputs ++ (Z.of_N <$> completion)].

Definition sample_prompt : str :=
  lit "### Instruction:" ++ nl ++ lit "Move all files from A to B" ++ nl ++ nl
  ++ lit "### Output:" ++ nl.

(** A log history as the trainer leaves it: a loss entry and the closing
    summary, which has no loss. *)
Definition sample_logs : list (gmap (list N) Z) :=
  [ {[ lit "loss" := 5%Z; lit "step" := 10%Z ]};
    {[ lit "train_runtime" := 7%Z; lit "step" := 20%Z ]} ].

(** A hub on which only the model identifier resolves. *)
Definition sample_load_tokenizer (source : str) (_ : option device)
  : result Tokenizer :=
  if decide (source = model_name) then Ok (sample_tokenizer SideLeft)
  else Raise (LibraryError 404).

Definition sample_load_model (source : str) (_ : option model_options)
  : result unit :=
  if decide (source = model_name) then Ok tt else Raise (LibraryError 404).

(** * Properties *)

Lemma result_bind_Ok {A B} (a : A) (f : A → result B) : Ok a ≫= f = f a.
Proof. done. Qed.

Lemma Ok_inj {A} (a b : A) : Ok a = Ok b → a = b.
Proof. by intros [= ->]. Qed.

Lemma index_0 {A} (x : A) l : index (x :: l) 0 = Ok x.
Proof. done. Qed.

Lemma index_S {A} (x : A) l i : index (x :: l) (S i) = index l i.
Proof. done. Qed.

(** ** Occurrences of a substring *)

Lemma startswith_prefix (p s : str) : startswith p s = true ↔ p `prefix_of` s.
Proof.
  revert s. induction p as [|a p IH]; intros [|b s]; simpl.
  - split; [intros _; apply prefix_nil | done].
  - split; [intros _; apply prefix_nil | done].
  - split; [done | intros H; by apply prefix_nil_not in H].
  - rewrite andb_true_iff, N.eqb_eq, IH. split.
    + intros [-> H]. by apply prefix_cons.
    + intros H. split; [by apply prefix_cons_inv_1 in H
                       | by apply prefix_cons_inv_2 in H].
Qed.

Lemma startswith_false (p s : str) :
  startswith p s = false ↔ ¬ p `prefix_of` s.
Proof.
  rewrite <- startswith_prefix. destruct (startswith p s); split; done.
Qed.

Lemma occurs_cons (sub : str) c s :
  occurs sub (c :: s) ↔ sub `prefix_of` (c :: s) ∨ occurs sub s.
Proof.
  split.
  - intros ([|a0 a] & b & E); simpl in E.
    + left. by exists b.
    + right. injection E as -> ->. by exists a, b.
  - intros [[b ->] | (a & b & ->)].
    + by exists [], b.
    + by exists (c :: a), b.
Qed.

Lemma occurs_nil (sub : str) : occurs sub [] ↔ sub = [].
Proof.
  split.
  - intros (a & b & E). symmetry in E.
    apply app_eq_nil in E as [_ E]. by apply app_eq_nil in E as [E _].
  - intros ->. by exists [], [].
Qed.

Lemma find_None (sub s : str) : find sub s = None ↔ ¬ occurs sub s.
Proof.
  induction s as [|c s IH]; simpl.
  - rewrite occurs_nil. destruct sub; simpl; split; done.
  - rewrite occurs_cons. destruct (startswith sub (c :: s)) eqn:E.
    + apply startswith_prefix in E. split; [done | tauto].
    + apply startswith_false in E. rewrite fmap_None, IH. tauto.
Qed.

Lemma find_Some (sub s : str) i :
  find sub s = Some i ↔ first_at sub s (take i s) ∧ i ≤ length s.
Proof.
  revert i. induction s as [|c s IH]; intros i; simpl.
  - destruct (startswith sub []) eqn:E.
    + apply startswith_prefix in E. split.
      * intros [= <-]. split; [|done]. split; [apply E|]. simpl. lia.
      * intros [_ H]. f_equal. lia.
    + apply startswith_false in E. split; [done|].
      intros [[[b Hb] _] _]. destruct E. rewrite take_nil in Hb.
      by exists b.
  - destruct (startswith sub (c :: s)) eqn:E.
    + apply startswith_prefix in E. split.
      * intros [= <-]. split; [|lia]. split; [apply E|]. simpl. lia.
      * intros [[_ Hmin] _]. destruct E as [b Hb].
        specialize (Hmin [] b Hb). destruct i; [done|]. simpl in Hmin. lia.
    + apply startswith_false in E. split.
      * destruct (find sub s) as [j|]; [|done]. intros [= <-].
        destruct (proj1 (IH j) eq_refl) as [[[b Hb] Hmin] Hle].
        split; [|simpl; lia].
        split.
        -- exists b. simpl. by rewrite <- Hb.
        -- intros [|a0 a'] b' E'; simpl in E'.
           ++ destruct E. by exists b'.
           ++ injection E' as -> E'. simpl.
              specialize (Hmin a' b' E'). lia.
      * intros [[[b Hb] Hmin] Hle]. destruct i as [|i].
        { destruct E. by exists b. }
        simpl in Hb, Hle. injection Hb as Hb.
        assert (find sub s = Some i) as ->; [|done].
        apply IH. split; [|lia]. split; [by exists b|].
        intros a' b' E'.
        assert (c :: s = (c :: a') ++ sub ++ b') as Hc
          by (simpl; by rewrite <- E').
        specialize (Hmin _ _ Hc). simpl in Hmin. lia.
Qed.

Lemma occurs_app (sub a s b : str) : occurs sub s → occurs sub (a ++ s ++ b).
Proof.
  intros (x & y & ->). exists (a ++ x), (y ++ b).
  by rewrite <- !(assoc_L (++)).
Qed.

Lemma first_at_find (sub a b : str) :
  first_at sub (a ++ sub ++ b) a → find sub (a ++ sub ++ b) = Some (length a).
Proof.
  intros H. apply find_Some. rewrite take_app_length.
  split; [done|]. rewrite length_app. lia.
Qed.

Lemma find_first_at (sub s : str) i :
  find sub s = Some i →
  first_at sub s (take i s) ∧ s = take i s ++ sub ++ drop (i + length sub) s.
Proof.
  intros H. apply find_Some in H as [H Hi]. split; [done|].
  destruct H as [[b Hb] _].
  assert (drop (i + length sub) s = b) as ->; [|done].
  rewrite Hb at 1. rewrite <- drop_drop.
  replace i with (length (take i s)) at 1 by (rewrite length_take; lia).
  by rewrite drop_app_length, drop_app_length.
Qed.

(** ** The pieces of [split] *)

Lemma find_nil_sep (sep : str) : sep ≠ [] → find sep [] = None.
Proof. by destruct sep. Qed.

Lemma split_loop_S (sep : str) n s :
  split_loop (S n) sep s =
  match find sep s with
  | None => [s]
  | Some i => take i s :: split_loop n sep (drop (i + length sep) s)
  end.
Proof. done. Qed.

Lemma split_loop_fuel (sep : str) n m s :
  sep ≠ [] → length s ≤ n → length s ≤ m →
  split_loop n sep s = split_loop m sep s.
Proof.
  intros Hsep. revert m s.
  induction n as [|n IH]; intros [|m] s Hn Hm; simpl; try done.
  - destruct s; [|simpl in Hn; lia]. by rewrite find_nil_sep.
  - destruct s; [|simpl in Hm; lia]. by rewrite find_nil_sep.
  - destruct (find sep s) as [i|] eqn:E; [|done]. f_equal.
    assert (0 < length sep) by (destruct sep; [done | simpl; lia]).
    apply IH; rewrite length_drop; lia.
Qed.

Lemma split_loop_head (sep : str) n s :
  sep ≠ [] → length s ≤ n →
  ∃ pieces, split_loop n sep s = before sep s :: pieces.
Proof.
  intros Hsep Hn. unfold before. destruct n as [|n]; simpl.
  - destruct s; [|simpl in Hn; lia]. rewrite find_nil_sep by done. by exists [].
  - destruct (find sep s); eauto.
Qed.

Lemma split_no_sep (sep s : str) :
  sep ≠ [] → ¬ occurs sep s → split sep s = Ok [s].
Proof.
  intros Hsep H. apply find_None in H. unfold split.
  destruct sep; [done|]. f_equal. destruct (length s); simpl; [done|].
  by rewrite H.
Qed.

Lemma split_first (sep a b : str) :
  sep ≠ [] → first_at sep (a ++ sep ++ b) a →
  ∃ pieces, split sep (a ++ sep ++ b) = Ok (a :: before sep b :: pieces).
Proof.
  intros Hsep H. apply first_at_find in H. unfold split.
  destruct sep as [|c sep]; [done|].
  rewrite (split_loop_fuel _ _ (S (length a + length sep + length b)));
    [|done|lia|rewrite !length_app; simpl; lia].
  rewrite split_loop_S, H, take_app_length.
  replace (length a + length (c :: sep))
    with (length (a ++ c :: sep)) by (by rewrite length_app).
  rewrite (assoc_L (++) a), drop_app_length.
  destruct (split_loop_head (c :: sep) (length a + length sep + length b) b)
    as [pieces ->]; [done | lia |]. by exists pieces.
Qed.

Lemma before_no_sep (sep s : str) : sep ≠ [] → ¬ occurs sep (before sep s).
Proof.
  intros Hsep. unfold before. destruct (find sep s) as [i|] eqn:E.
  - apply find_first_at in E as [[_ Hmin] E].
    intros (x & y & Hx).
    assert (0 < length sep) by (destruct sep; [done | simpl; lia]).
    assert (s = x ++ sep ++ (y ++ sep ++ drop (i + length sep) s)) as Hs.
    { rewrite E at 1. rewrite Hx. by rewrite <- !(assoc_L (++)). }
    specialize (Hmin _ _ Hs). rewrite Hx, !length_app in Hmin. lia.
  - by apply find_None.
Qed.

Lemma split_head (sep s : str) :
  sep ≠ [] → ∃ pieces, split sep s = Ok (before sep s :: pieces).
Proof.
  intros Hsep. unfold split. destruct sep as [|c sep]; [done|].
  destruct (split_loop_head (c :: sep) (length s) s) as [pieces ->];
    [done | lia |]. by exists pieces.
Qed.

(** ** Whitespace stripping *)

Lemma lstrip_spec (s : str) :
  ∃ ws, s = ws ++ lstrip s ∧ all_space ws ∧
        ∀ c, head (lstrip s) = Some c → isspace c = false.
Proof.
  induction s as [|c s (ws & E & Hws & Hhd)]; simpl.
  - exists []. split; [done|]. split; [constructor | done].
  - destruct (isspace c) eqn:Ec.
    + exists (c :: ws). split; [simpl; by rewrite <- E|].
      split; [by constructor | done].
    + exists []. split; [done|]. split; [constructor|].
      simpl. by intros ? [= <-].
Qed.

Lemma rstrip_spec (s : str) :
  ∃ ws, s = rstrip s ++ ws ∧ all_space ws ∧
        ∀ c, last (rstrip s) = Some c → isspace c = false.
Proof.
  unfold rstrip. destruct (lstrip_spec (reverse s)) as (ws & E & Hws & Hhd).
  exists (reverse ws). split; [|split].
  - rewrite <- reverse_app, <- E. by rewrite reverse_involutive.
  - unfold all_space. by rewrite Forall_reverse.
  - intros c. rewrite last_reverse. apply Hhd.
Qed.

Lemma lstrip_id (s : str) :
  (∀ c, head s = Some c → isspace c = false) → lstrip s = s.
Proof.
  destruct s as [|c s]; [done|]. simpl. intros H. by rewrite (H c).
Qed.

Lemma rstrip_id (s : str) :
  (∀ c, last s = Some c → isspace c = false) → rstrip s = s.
Proof.
  intros H. unfold rstrip. rewrite lstrip_id; [apply reverse_involutive|].
  intros c. rewrite head_reverse. apply H.
Qed.

Lemma lstrip_space_app (ws s : str) : all_space ws → lstrip (ws ++ s) = lstrip s.
Proof. induction 1 as [|c ws Hc _ IH]; simpl; [done|]. by rewrite Hc. Qed.

Lemma lstrip_all_space (ws : str) : all_space ws → lstrip ws = [].
Proof.
  intros H. rewrite <- (app_nil_r ws). by rewrite lstrip_space_app.
Qed.

Lemma rstrip_app_space (s ws : str) : all_space ws → rstrip (s ++ ws) = rstrip s.
Proof.
  intros H. unfold rstrip. rewrite reverse_app, lstrip_space_app; [done|].
  unfold all_space. by rewrite Forall_reverse.
Qed.

Lemma strip_spec (s : str) :
  ∃ ws1 ws2, s = ws1 ++ strip s ++ ws2 ∧ all_space ws1 ∧ all_space ws2 ∧
             no_outer_space (strip s).
Proof.
  unfold strip.
  destruct (lstrip_spec s) as (ws1 & E1 & H1 & Hhd).
  destruct (rstrip_spec (lstrip s)) as (ws2 & E2 & H2 & Hlast).
  exists ws1, ws2. split; [by rewrite <- E2|]. split; [done|].
  split; [done|]. split; [|done].
  intros c Hc. apply Hhd. rewrite E2.
  destruct (rstrip (lstrip s)); [done|]. done.
Qed.

Lemma strip_id (s : str) : no_outer_space s → strip s = s.
Proof.
  intros [Hhd Hlast]. unfold strip. rewrite lstrip_id by done.
  by apply rstrip_id.
Qed.

Lemma strip_occurs (sub s : str) : occurs sub (strip s) → occurs sub s.
Proof.
  destruct (strip_spec s) as (ws1 & ws2 & E & _). intros H.
  rewrite E. by apply occurs_app.
Qed.

(** ** The two markers *)

Lemma marker_output_nonempty : marker_output ≠ [].
Proof. done. Qed.

Lemma marker_hashes_nonempty : marker_hashes ≠ [].
Proof. done. Qed.

(** [main_output] on a text without the marker: one piece, index 1 is out
    of range. *)
Lemma main_output_no_marker (text : str) :
  ¬ occurs marker_output text → main_output text = Raise IndexError.
Proof.
  intros H. unfold main_output.
  by rewrite (split_no_sep _ _ marker_output_nonempty H).
Qed.

(** [main_output] on a text whose first marker stands after [pre]. *)
Lemma main_output_first (pre rest : str) :
  first_at marker_output (pre ++ marker_output ++ rest) pre →
  main_output (pre ++ marker_output ++ rest)
  = Ok (strip (before marker_hashes (strip (before marker_output rest)))).
Proof.
  intros H. unfold main_output.
  destruct (split_first _ _ _ marker_output_nonempty H) as [pieces ->].
  rewrite result_bind_Ok, index_S, index_0, result_bind_Ok.
  destruct (split_head marker_hashes (strip (before marker_output rest))
              marker_hashes_nonempty) as [pieces' ->].
  by rewrite result_bind_Ok, index_0, result_bind_Ok.
Qed.

(** ** Searching in a concatenation *)

Lemma startswith_app (p s t : str) :
  startswith p s = true → startswith p (s ++ t) = true.
Proof.
  rewrite !startswith_prefix. intros H. by apply prefix_app_r.
Qed.

Lemma startswith_app_false (p s t : str) :
  length p ≤ length s → startswith p s = false →
  startswith p (s ++ t) = false.
Proof.
  revert s. induction p as [|a p IH]; intros [|b s]; simpl; try done; [lia|].
  intros Hlen. destruct (a =? b)%N; simpl; [|done]. apply IH. lia.
Qed.

Lemma find_Some_length (sub s : str) i :
  find sub s = Some i → i + length sub ≤ length s.
Proof.
  intros H. pose proof (proj1 (find_Some _ _ _) H) as [_ Hi].
  apply find_first_at in H as [_ E].
  apply (f_equal length) in E. rewrite !length_app in E.
  rewrite length_take in E. lia.
Qed.

Lemma find_app_l (sub s t : str) q :
  find sub s = Some q → find sub (s ++ t) = Some q.
Proof.
  revert q. induction s as [|c s IH]; intros q; simpl.
  - destruct sub; [|done]. intros [= <-]. by destruct t.
  - destruct (startswith sub (c :: s)) eqn:E.
    + intros [= <-]. pose proof (startswith_app sub (c :: s) t E) as E'.
      change ((c :: s) ++ t) with (c :: s ++ t) in E'. by rewrite E'.
    + destruct (find sub s) as [j|] eqn:Ej; [|done]. intros [= <-].
      assert (startswith sub (c :: s ++ t) = false) as ->.
      { apply (startswith_app_false sub (c :: s) t); [|done].
        apply find_Some_length in Ej. simpl. lia. }
      by rewrite (IH j).
Qed.

Lemma find_hashes_cons_None c (s : str) :
  find marker_hashes (c :: s) = None →
  startswith marker_hashes (c :: s) = false ∧ find marker_hashes s = None.
Proof.
  change (find marker_hashes (c :: s)) with
    (if startswith marker_hashes (c :: s) then Some 0
     else S <$> find marker_hashes s).
  destruct (startswith marker_hashes (c :: s)); [done|].
  intros H. by apply fmap_None in H.
Qed.

Lemma find_cons_false (sub : str) c s :
  startswith sub (c :: s) = false → find sub (c :: s) = S <$> find sub s.
Proof. simpl. by intros ->. Qed.

Lemma marker_hashes_eq : marker_hashes = [hash; hash; hash].
Proof. done. Qed.

(** No [###] begins in [b] when [b] holds none and the text that follows
    does not begin with [#]. *)
Lemma find_hashes_app_head (b t : str) :
  find marker_hashes b = None →
  (∀ c, head t = Some c → c ≠ hash) →
  find marker_hashes (b ++ t) = (λ i, length b + i) <$> find marker_hashes t.
Proof.
  intros Hb Ht. induction b as [|c b IH].
  - simpl. by destruct (find marker_hashes t).
  - apply find_hashes_cons_None in Hb as [Hc Hb]. specialize (IH Hb).
    rewrite <- app_comm_cons, find_cons_false, IH.
    + destruct (find marker_hashes t); done.
    + clear IH Hb. apply startswith_false in Hc. apply startswith_false.
      intros [k Hk]. apply Hc. rewrite marker_hashes_eq in *.
      destruct b as [|d [|e b]]; simpl in Hk.
      * injection Hk as -> ->. by destruct (Ht hash).
      * injection Hk as -> -> ->. by destruct (Ht hash).
      * injection Hk as -> -> -> _. by exists b.
Qed.

(** No [###] begins in [b] when [b] holds none and does not end with [#]. *)
Lemma find_hashes_app_last (b t : str) :
  find marker_hashes b = None →
  (∀ c, last b = Some c → c ≠ hash) →
  find marker_hashes (b ++ t) = (λ i, length b + i) <$> find marker_hashes t.
Proof.
  intros Hb Hl. induction b as [|c b IH].
  - simpl. by destruct (find marker_hashes t).
  - apply find_hashes_cons_None in Hb as [Hc Hb].
    rewrite <- app_comm_cons, find_cons_false.
    + destruct b as [|d b].
      * simpl. by destruct (find marker_hashes t).
      * rewrite IH; [|done|].
        -- destruct (find marker_hashes t); done.
        -- intros x Hx. apply Hl. by rewrite last_cons, Hx.
    + clear IH Hb. apply startswith_false in Hc. apply startswith_false.
      intros [k Hk]. apply Hc. rewrite marker_hashes_eq in *.
      destruct b as [|d [|e b]]; simpl in Hk.
      * injection Hk as -> _. by destruct (Hl hash).
      * injection Hk as -> -> _. by destruct (Hl hash).
      * injection Hk as -> -> -> _. by exists b.
Qed.

Lemma find_hashes_space (ws t : str) :
  all_space ws →
  find marker_hashes (ws ++ t) = (λ i, length ws + i) <$> find marker_hashes t.
Proof.
  intros H. apply find_hashes_app_last.
  - apply find_None. intros (a & b & E).
    unfold all_space in H. rewrite E, !Forall_app in H.
    destruct H as (_ & H & _). by inversion H.
  - intros c Hc ->. apply last_Some_elem_of in Hc.
    unfold all_space in H. rewrite Forall_forall in H. by apply H in Hc.
Qed.

Lemma lstrip_app_nonspace (x y : str) c :
  head y = Some c → isspace c = false → lstrip (x ++ y) = lstrip x ++ y.
Proof.
  intros Hy Hc. induction x as [|d x IH]; simpl.
  - apply lstrip_id. intros c'. rewrite Hy. by intros [= <-].
  - by destruct (isspace d).
Qed.

Lemma rstrip_app_nonspace (x y : str) c :
  last x = Some c → isspace c = false → rstrip (x ++ y) = x ++ rstrip y.
Proof.
  intros Hx Hc. unfold rstrip.
  rewrite reverse_app, (lstrip_app_nonspace _ _ c), reverse_app; [|by rewrite head_reverse|done].
  by rewrite reverse_involutive.
Qed.

Lemma find_hashes_marker (t : str) :
  find marker_hashes (marker_output ++ t) = Some 0.
Proof. done. Qed.

Lemma last_app_nonempty {A} (x y : list A) :
  y ≠ [] → last (x ++ y) = last y.
Proof.
  intros Hy. rewrite last_app. destruct (last y) as [l|] eqn:E; [done|].
  by apply last_None in E.
Qed.

(** The text after the first marker and the piece [split] cuts from it
    lead to the same answer, unless [#### Output:] follows. *)
Lemma before_marker_cut (rest : str) :
  ¬ occurs (hash :: marker_output) rest →
  strip (before marker_hashes (strip (before marker_output rest)))
  = strip (before marker_hashes (strip rest)).
Proof.
  intros Hno. unfold before at 2.
  destruct (find marker_output rest) as [j|] eqn:Ej; [|done].
  apply find_first_at in Ej as [_ Erest].
  set (p1 := take j rest) in *.
  set (r2 := drop (j + length marker_output) rest) in *. clearbody p1 r2.
  destruct (strip_spec p1) as (ws1 & ws2 & Ep & Hws1 & Hws2 & Hhd & Hlast).
  set (b := strip p1) in *. clearbody b. subst p1 rest.
  assert (strip ((ws1 ++ b ++ ws2) ++ marker_output ++ r2)
          = lstrip (b ++ ws2) ++ marker_output ++ rstrip r2) as ->.
  { unfold strip. rewrite <- (assoc_L (++) ws1), lstrip_space_app by done.
    rewrite (lstrip_app_nonspace _ _ hash); [|done..].
    rewrite (assoc_L (++) _ marker_output).
    rewrite (rstrip_app_nonspace _ _ 58%N); [by rewrite <- (assoc_L (++))| |done].
    by rewrite last_app_nonempty. }
  destruct b as [|c0 b0] eqn:Eb.
  { rewrite app_nil_l, lstrip_all_space, app_nil_l by done.
    unfold before. by rewrite find_hashes_marker. }
  rewrite <- Eb in *. assert (b ≠ []) as Hne by (by rewrite Eb). clear Eb.
  rewrite lstrip_id.
  2:{ intros c. destruct b; [done|]. apply Hhd. }
  unfold before. destruct (find marker_hashes b) as [q|] eqn:Eq.
  - rewrite <- !(assoc_L (++)), (find_app_l _ _ _ _ Eq).
    apply find_Some_length in Eq. by rewrite take_app_le by lia.
  - assert (find marker_hashes (b ++ ws2 ++ marker_output ++ rstrip r2)
            = Some (length (b ++ ws2))) as E.
    { destruct ws2 as [|w ws2'] eqn:Ew.
      - rewrite app_nil_l, app_nil_r, find_hashes_app_last; [| done |].
        + rewrite find_hashes_marker. simpl. f_equal. lia.
        + intros c Hc ->. apply Hno.
          apply last_Some in Hc as [b' ->].
          exists (ws1 ++ b'), r2. rewrite app_nil_r.
          by rewrite <- !(assoc_L (++)).
      - rewrite <- Ew in *. rewrite find_hashes_app_head; [| done |].
        + rewrite find_hashes_space, find_hashes_marker by done. simpl.
          f_equal. rewrite length_app. lia.
        + rewrite Ew. simpl. intros c [= <-] ->.
          rewrite Ew in Hws2. by inversion Hws2. }
    rewrite <- !(assoc_L (++)), E.
    rewrite (assoc_L (++) b), take_app_length.
    rewrite (strip_id b) by done.
    unfold strip. rewrite lstrip_id.
    2:{ intros c. destruct b; [done|]. apply Hhd. }
    rewrite rstrip_app_space by done. symmetry. by apply rstrip_id.
Qed.

(** ** Prompt formatter *)

(** C1.  For every example whose instruction field is [ins] and whose
    output field is [out], [format] returns exactly
    ["### Instruction:\n" + ins + "\n\n### Output:\n" + out]: the two fields
    stand in it unchanged and whole (the length is 31 plus both lengths),
    and the result depends on nothing but the two fields. *)
Theorem format_exact (example : Example) (ins out : str) :
  example !! col_instruction = Some ins →
  example !! col_output = Some out →
  format example
  = Ok (lit "### Instruction:" ++ nl ++ ins ++ nl ++ nl ++ lit "### Output:"
        ++ nl ++ out)
  ∧ (∀ text, format example = Ok text →
       length text = 31 + length ins + length out
       ∧ take (length ins) (drop 17 text) = ins
       ∧ drop (31 + length ins) text = out)
  ∧ (∀ example' : Example,
       example' !! col_instruction = Some ins →
       example' !! col_output = Some out →
       format example' = format example).
Proof.
  intros HI HO.
  assert (∀ ex : Example,
            ex !! col_instruction = Some ins → ex !! col_output = Some out →
            format ex = Ok (lit "### Instruction:" ++ nl ++ ins ++ nl ++ nl
                            ++ lit "### Output:" ++ nl ++ out)) as Hfmt.
  { intros ex H1 H2. unfold format, fstring, getitem. rewrite H1, H2.
    rewrite !result_bind_Ok. unfold mret, result_ret.
    by rewrite app_nil_r, <- !(assoc_L (++)). }
  split; [by apply Hfmt|]. split.
  - intros text. rewrite (Hfmt example HI HO). intros <-%Ok_inj.
    split; [|split].
    + rewrite !length_app. simpl. lia.
    + change (lit "### Instruction:" ++ nl ++ ins ++ nl ++ nl
              ++ lit "### Output:" ++ nl ++ out)
        with ((lit "### Instruction:" ++ nl) ++ ins ++ nl ++ nl
              ++ lit "### Output:" ++ nl ++ out).
      rewrite (drop_app_length' _ _ 17) by done.
      by rewrite take_app_length.
    + replace (lit "### Instruction:" ++ nl ++ ins ++ nl ++ nl
               ++ lit "### Output:" ++ nl ++ out)
        with ((lit "### Instruction:" ++ nl ++ ins ++ nl ++ nl
               ++ lit "### Output:" ++ nl) ++ out)
        by (by rewrite <- !(assoc_L (++))).
      rewrite drop_app_length'; [done|].
      rewrite !length_app. simpl. lia.
  - intros ex' H1 H2. by rewrite (Hfmt ex' H1 H2), (Hfmt example HI HO).
Qed.

Lemma format_exact_witness :
  format sample_row
  = Ok (lit "### Instruction:" ++ nl ++ lit "Move all files from A to B"
        ++ nl ++ nl ++ lit "### Output:" ++ nl ++ lit "mv A/* B/").
Proof.
  apply (format_exact sample_row (lit "Move all files from A to B")
           (lit "mv A/* B/")); vm_compute; reflexivity.
Defined.

(** ** Answer extraction *)

Lemma runExample_generated {Model} generate (model : Model) prompt p text p' :
  generated_text Model generate model prompt p = (Ok text, p') →
  runExample Model generate model prompt p = (main_output text, p').
Proof.
  intros H. unfold runExample, mbind, M_bind. by rewrite H.
Qed.

Lemma occurs_first_at (sub s : str) :
  occurs sub s → ∃ a b, s = a ++ sub ++ b ∧ first_at sub s a.
Proof.
  intros H. destruct (find sub s) as [i|] eqn:E.
  - apply find_first_at in E as [H1 H2]. by exists (take i s), (drop (i + length sub) s).
  - by apply find_None in E.
Qed.

(** C4.  When the decoded text holds no ["### Output:"], the split yields the
    one segment that is the whole text, fewer than two, and [runExample]
    raises IndexError: it returns no value at all. *)
Theorem runExample_no_marker {Model} generate (model : Model) prompt p text p' :
  generated_text Model generate model prompt p = (Ok text, p') →
  ¬ occurs marker_output text →
  split marker_output text = Ok [text]
  ∧ runExample Model generate model prompt p = (Raise IndexError, p')
  ∧ ∀ answer, fst (runExample Model generate model prompt p) ≠ Ok answer.
Proof.
  intros Hgen Hno. split; [|split].
  - by apply split_no_sep.
  - by rewrite (runExample_generated _ _ _ _ _ _ Hgen), main_output_no_marker.
  - intros answer.
    by rewrite (runExample_generated _ _ _ _ _ _ Hgen), main_output_no_marker.
Qed.

Lemma runExample_no_marker_witness :
  fst (runExample unit (sample_generate (lit " world")) tt (lit "hello")
         (sample_proc SideLeft false false))
  = Raise IndexError.
Proof.
  assert (generated_text unit (sample_generate (lit " world")) tt (lit "hello")
            (sample_proc SideLeft false false)
          = (Ok (lit "hello world"),
             with_event (EvTokenizerCall None (lit "hello"))
               (sample_proc SideLeft false false))) as Hgen
    by (vm_compute; reflexivity).
  assert (¬ occurs marker_output (lit "hello world")) as Hno
    by (apply find_None; vm_compute; reflexivity).
  destruct (runExample_no_marker _ _ _ _ _ _ Hgen Hno) as (_ & H & _).
  rewrite H. reflexivity.
Defined.

(** C9.  When the decoded text holds ["### Output:"], [runExample] returns
    an answer; no ["###"] occurs in it and neither its first nor its last
    character is whitespace. *)
Theorem runExample_answer_clean {Model} generate (model : Model) prompt p
    text p' :
  generated_text Model generate model prompt p = (Ok text, p') →
  occurs marker_output text →
  ∃ answer,
    runExample Model generate model prompt p = (Ok answer, p')
    ∧ ¬ occurs marker_hashes answer
    ∧ no_outer_space answer.
Proof.
  intros Hgen Hocc.
  destruct (occurs_first_at _ _ Hocc) as (pre & rest & -> & Hfirst).
  exists (strip (before marker_hashes (strip (before marker_output rest)))).
  split; [|split].
  - by rewrite (runExample_generated _ _ _ _ _ _ Hgen), main_output_first.
  - intros H%strip_occurs. by apply before_no_sep in H.
  - destruct (strip_spec (before marker_hashes
                            (strip (before marker_output rest))))
      as (_ & _ & _ & _ & _ & H). exact H.
Qed.

Lemma runExample_answer_clean_witness :
  ∃ answer,
    fst (runExample unit (sample_generate (lit "mv A/* B/" ++ nl ++ lit "###"))
           tt sample_prompt (sample_proc SideLeft false false))
    = Ok answer
    ∧ ¬ occurs marker_hashes answer ∧ no_outer_space answer.
Proof.
  assert (generated_text unit
            (sample_generate (lit "mv A/* B/" ++ nl ++ lit "###")) tt
            sample_prompt (sample_proc SideLeft false false)
          = (Ok (sample_prompt ++ lit "mv A/* B/" ++ nl ++ lit "###"),
             with_event (EvTokenizerCall None sample_prompt)
               (sample_proc SideLeft false false))) as Hgen
    by (vm_compute; reflexivity).
  assert (occurs marker_output
            (sample_prompt ++ lit "mv A/* B/" ++ nl ++ lit "###")) as Hocc.
  { exists (lit "### Instruction:" ++ nl ++ lit "Move all files from A to B"
            ++ nl ++ nl),
      (nl ++ lit "mv A/* B/" ++ nl ++ lit "###").
    vm_compute. reflexivity. }
  destruct (runExample_answer_clean _ _ _ _ _ _ Hgen Hocc)
    as (answer & H & Hclean).
  exists answer. rewrite H. split; [reflexivity | exact Hclean].
Defined.

(** The answer of C9 can be empty: ["###"] right after the marker. *)
Example main_output_empty_answer : main_output (lit "### Output:###") = Ok [].
Proof. vm_compute. reflexivity. Qed.

Lemma move_files_cut (tail : str) :
  strip (before marker_hashes
           (strip (nl ++ move_files ++ nl ++ marker_hashes ++ tail)))
  = move_files.
Proof.
  assert (strip (nl ++ move_files ++ nl ++ marker_hashes ++ tail)
          = (move_files ++ nl ++ marker_hashes) ++ rstrip tail) as ->.
  { unfold strip.
    change (lstrip (nl ++ move_files ++ nl ++ marker_hashes ++ tail))
      with ((move_files ++ nl ++ marker_hashes) ++ tail).
    by apply (rstrip_app_nonspace _ _ hash). }
  unfold before.
  change (find marker_hashes ((move_files ++ nl ++ marker_hashes) ++ rstrip tail))
    with (Some 11).
  change (take 11 ((move_files ++ nl ++ marker_hashes) ++ rstrip tail))
    with (move_files ++ nl).
  vm_compute. reflexivity.
Qed.

(** C3, as the code has it.  When the first ["### Output:"] of the decoded
    text is followed by [rest], [runExample] returns the piece of [rest] in
    front of the next ["### Output:"] (all of [rest] when there is none),
    stripped, cut before its first ["###"], stripped again.  When no
    ["#### Output:"] occurs in [rest], that is [rest] itself stripped, cut
    before its first ["###"] and stripped again; and then, for [rest]
    beginning with ["\nMOVE_FILES\n###"], the answer is ["MOVE_FILES"]. *)
Theorem runExample_answer {Model} generate (model : Model) prompt p p'
    (pre rest : str) :
  generated_text Model generate model prompt p
  = (Ok (pre ++ marker_output ++ rest), p') →
  first_at marker_output (pre ++ marker_output ++ rest) pre →
  runExample Model generate model prompt p
  = (Ok (strip (before marker_hashes (strip (before marker_output rest)))), p')
  ∧ (¬ occurs (hash :: marker_output) rest →
     runExample Model generate model prompt p
     = (Ok (strip (before marker_hashes (strip rest))), p')
     ∧ ∀ tail, rest = nl ++ move_files ++ nl ++ marker_hashes ++ tail →
         runExample Model generate model prompt p = (Ok move_files, p')).
Proof.
  intros Hgen Hfirst.
  rewrite (runExample_generated _ _ _ _ _ _ Hgen), main_output_first by done.
  split; [done|]. intros Hno. rewrite before_marker_cut by done.
  split; [done|]. intros tail ->. by rewrite move_files_cut.
Qed.

Lemma runExample_answer_witness :
  fst (runExample unit
         (sample_generate (move_files ++ nl ++ lit "### Instruction:")) tt
         sample_prompt (sample_proc SideLeft false false))
  = Ok move_files.
Proof.
  pose (pre := lit "### Instruction:" ++ nl
               ++ lit "Move all files from A to B" ++ nl ++ nl).
  pose (rest := nl ++ move_files ++ nl ++ marker_hashes
                ++ lit " Instruction:").
  assert (generated_text unit
            (sample_generate (move_files ++ nl ++ lit "### Instruction:")) tt
            sample_prompt (sample_proc SideLeft false false)
          = (Ok (pre ++ marker_output ++ rest),
             with_event (EvTokenizerCall None sample_prompt)
               (sample_proc SideLeft false false))) as Hgen
    by (vm_compute; reflexivity).
  assert (first_at marker_output (pre ++ marker_output ++ rest) pre) as Hfirst.
  { assert (find marker_output (pre ++ marker_output ++ rest)
            = Some (length pre)) as H by (vm_compute; reflexivity).
    apply find_Some in H as [H _]. by rewrite take_app_length in H. }
  assert (¬ occurs (hash :: marker_output) rest) as Hno
    by (apply find_None; vm_compute; reflexivity).
  destruct (runExample_answer _ _ _ _ _ _ _ Hgen Hfirst) as [_ H].
  destruct (H Hno) as [_ H'].
  rewrite (H' (lit " Instruction:") eq_refl). reflexivity.
Defined.

(** C3 as stated fails.  The decoded text below holds
    ["### Output:\nMOVE_FILES\n###"], its first marker is that one, and the
    text after it, stripped and cut before the first ["###"], is
    ["MOVE_FILES"]; [runExample] returns ["MOVE_FILES\n#"], because the text
    goes on with ["# Output:"] and [split] cuts at the marker that begins
    with the second [#]. *)
Lemma runExample_answer_counterexample :
  let pre := lit "### Instruction:" ++ nl
             ++ lit "Move all files from A to B" ++ nl ++ nl in
  let rest := nl ++ move_files ++ nl ++ marker_hashes ++ lit "# Output:" in
  let text := pre ++ marker_output ++ rest in
  let completion := move_files ++ nl ++ lit "#### Output:" in
  fst (generated_text unit (sample_generate completion) tt sample_prompt
         (sample_proc SideLeft false false)) = Ok text
  ∧ find marker_output text = Some (length pre)
  ∧ strip (before marker_hashes (strip rest)) = move_files
  ∧ fst (runExample unit (sample_generate completion) tt sample_prompt
           (sample_proc SideLeft false false))
    = Ok (move_files ++ nl ++ lit "#")
  ∧ fst (runExample unit (sample_generate completion) tt sample_prompt
           (sample_proc SideLeft false false))
    ≠ Ok move_files.
Proof.
  cbv zeta. repeat split; try (vm_compute; reflexivity).
  vm_compute. discriminate.
Qed.

(** ** Replacing a character *)

Lemma not_occurs_singleton (c : char) (s : str) : ¬ occurs [c] s → c ∉ s.
Proof.
  intros H Hin. apply H. apply list_elem_of_split in Hin as (a & b & ->).
  by exists a, b.
Qed.

Lemma slash_to_underscore_id (s : str) :
  47%N ∉ s → slash_to_underscore <$> s = s.
Proof.
  induction s as [|c s IH]; [done|]. intros H.
  apply not_elem_of_cons in H as [Hc Hs]. rewrite fmap_cons, IH by done.
  unfold slash_to_underscore. by destruct (N.eqb_spec c 47).
Qed.

Lemma join_cons_cons (sep x y : str) ps :
  join sep (x :: y :: ps) = x ++ sep ++ join sep (y :: ps).
Proof. done. Qed.

Lemma join_split_slash n (s : str) :
  length s ≤ n →
  join (lit "_") (split_loop n (lit "/") s) = slash_to_underscore <$> s.
Proof.
  revert s. induction n as [|n IH]; intros s Hn.
  - by destruct s; [|simpl in Hn; lia].
  - rewrite split_loop_S.
    pose proof (before_no_sep (lit "/") s) as Hbefore. unfold before in Hbefore.
    destruct (find (lit "/") s) as [i|] eqn:E.
    + apply find_first_at in E as [_ E].
      change (length (lit "/")) with 1 in *.
      destruct (split_loop_head (lit "/") n (drop (i + 1) s))
        as [pieces Hp]; [done | rewrite length_drop; lia |].
      rewrite Hp, join_cons_cons, <- Hp, IH by (rewrite length_drop; lia).
      rewrite E at 3. rewrite !fmap_app.
      rewrite (slash_to_underscore_id (take i s)); [reflexivity|].
      apply not_occurs_singleton, Hbefore. done.
    + simpl. symmetry. apply slash_to_underscore_id.
      apply not_occurs_singleton, Hbefore. done.
Qed.

Lemma replace_slash (s : str) :
  replace (lit "/") (lit "_") s = slash_to_underscore <$> s.
Proof. unfold replace. by apply join_split_slash. Qed.

(** ** Model resolver *)

Lemma resolver_cell_run (p : Proc) (mount model_id : str) :
  resolver_cell mount model_id p
  = if ismount p mount then
      let dir := lit "/Volumes/" ++ mount ++ lit "/VSWorkspace/"
                 ++ (slash_to_underscore <$> model_id) in
      (Ok dir,
       with_event (EvSetEnviron (lit "HF_HOME") dir)
         (with_environ (<[lit "HF_HOME" := dir]> (environ p))
            (with_event
               (EvPrint (lit "/Volume/" ++ mount ++ lit " is mounted.")) p)))
    else
      (Ok (lit "model"),
       with_event
         (EvPrint (lit "/Volume/" ++ mount ++ lit " is not mounted.")) p).
Proof.
  unfold resolver_cell, mbind, M_bind, os_path_ismount.
  destruct (ismount p mount); [|done].
  by rewrite replace_slash.
Qed.

(** The two branches of the resolver cell, by the test the cell makes:
    [model_dir] is ["/Volumes/{mount}/VSWorkspace/{model id}"], every ['/']
    of the model id turned into ['_'], when [os.path.ismount(mount_point)]
    holds for the name as it stands, and ["model"] when it does not. *)
Theorem resolver_cell_model_dir (p : Proc) (mount model_id : str) :
  fst (resolver_cell mount model_id p)
  = Ok (if ismount p mount
        then lit "/Volumes/" ++ mount ++ lit "/VSWorkspace/"
             ++ (slash_to_underscore <$> model_id)
        else lit "model")
  ∧ fst (resolver_cell mount_point model_name p)
    = Ok (if ismount p mount_point
          then lit "/Volumes/Seagate/VSWorkspace/deepseek-ai_deepseek-coder-1.3b-base"
          else lit "model").
Proof.
  rewrite !resolver_cell_run. split.
  - by destruct (ismount p mount).
  - by destruct (ismount p mount_point).
Qed.

(** The path the cell tests is [mount_point] as it stands, a relative path:
    a process in which only ["/Volumes/Seagate"] is a mount point takes the
    unmounted branch. *)
Example resolver_cell_relative_path :
  fst (resolver_cell mount_point model_name
         {| ismount := λ path, bool_decide (path = lit "/Volumes/Seagate");
            path_exists := λ _, true;
            environ := ∅; tokenizer := None; trace := [] |})
  = Ok (lit "model").
Proof. vm_compute. reflexivity. Qed.

(** C5 fails on the code.  The cell names the drive ["/Volumes/Seagate"] in
    what it prints and in the [model_dir] it builds, but the path it hands to
    [os.path.ismount] is the bare name ["Seagate"].  So whenever the drive is
    mounted at ["/Volumes/Seagate"] and the working directory has no mount
    point of that name, the cell reports the drive as not mounted, binds
    [model_dir] to ["model"] instead of the directory on the drive, and
    leaves [HF_HOME] as it was. *)
Theorem resolver_cell_misses_mounted_drive (p : Proc) :
  ismount p (lit "/Volumes/" ++ mount_point) = true →
  ismount p mount_point = false →
  fst (resolver_cell mount_point model_name p) = Ok (lit "model")
  ∧ fst (resolver_cell mount_point model_name p)
    ≠ Ok (lit "/Volumes/Seagate/VSWorkspace/deepseek-ai_deepseek-coder-1.3b-base")
  ∧ environ (snd (resolver_cell mount_point model_name p)) = environ p
  ∧ trace (snd (resolver_cell mount_point model_name p))
    = trace p ++ [EvPrint (lit "/Volume/Seagate is not mounted.")].
Proof.
  intros _ Hrel. rewrite resolver_cell_run, Hrel.
  split; [done|]. split; [|done]. intros H%Ok_inj.
  vm_compute in H. discriminate.
Qed.

Lemma resolver_cell_misses_mounted_drive_witness :
  fst (resolver_cell mount_point model_name sample_proc_drive_mounted)
  = Ok (lit "model")
  ∧ environ (snd (resolver_cell mount_point model_name
                    sample_proc_drive_mounted)) !! lit "HF_HOME" = None.
Proof.
  destruct (resolver_cell_misses_mounted_drive sample_proc_drive_mounted)
    as (Hdir & _ & Henv & _).
  - vm_compute. reflexivity.
  - vm_compute. reflexivity.
  - split; [exact Hdir|]. rewrite Henv. reflexivity.
Defined.

(** C10.  The resolver cell assigns [os.environ["HF_HOME"]] in the mounted
    branch, to the [model_dir] it binds, and nowhere else: when the mount
    point is not mounted, [model_dir] is ["model"], the environment is the
    one before the cell, and the cell has only printed. *)
Theorem resolver_cell_environ (p : Proc) (mount model_id : str) :
  ∃ dir p',
    resolver_cell mount model_id p = (Ok dir, p')
    ∧ (if ismount p mount
       then environ p' = <[lit "HF_HOME" := dir]> (environ p)
            ∧ trace p'
              = trace p
                ++ [EvPrint (lit "/Volume/" ++ mount ++ lit " is mounted.");
                    EvSetEnviron (lit "HF_HOME") dir]
       else dir = lit "model"
            ∧ environ p' = environ p
            ∧ trace p'
              = trace p
                ++ [EvPrint (lit "/Volume/" ++ mount
                             ++ lit " is not mounted.")]).
Proof.
  rewrite resolver_cell_run. destruct (ismount p mount).
  - eexists _, _. split; [done|]. split; [done|]. simpl.
    by rewrite <- (assoc_L (++)).
  - eexists _, _. split; [done|]. done.
Qed.

(** ** Model and tokenizer loader *)

Lemma loader_cell_run {Model} tokL modL (p : Proc) (model_dir model_id : str)
    (dev : device) :
  let present := path_exists p model_dir in
  let source := if present then model_dir else model_id in
  let device_map := if present then None else Some dev in
  let options := if present then None else Some remote_options in
  let p1 := with_event (EvLoadTokenizer source device_map) p in
  loader_cell Model tokL modL model_dir model_id dev p
  = match tokL source device_map with
    | Raise e => (Raise e, p1)
    | Ok tk =>
        (modL source options,
         with_event (EvLoadModel source options)
           (with_tokenizer (Some tk) p1))
    end.
Proof.
  unfold loader_cell, mbind, M_bind, os_path_exists, load_tokenizer,
    load_model, emit, lift, bind_tokenizer, mbind, M_bind.
  destruct (path_exists p model_dir); simpl.
  - destruct (tokL model_dir None); [|done]. by destruct (modL model_dir None).
  - destruct (tokL model_id (Some dev)); [|done].
    by destruct (modL model_id (Some remote_options)).
Qed.

(** C6.  The loader cell asks the library for the tokenizer and then for the
    model, both from [model_dir] without keywords when [model_dir] exists and
    both from the model identifier otherwise; it loads from the directory if
    and only if the directory exists.  Each of the two is asked once: the
    first that raises ends the cell with that exception, and the model is not
    asked for when the tokenizer failed. *)
Theorem loader_cell_source {Model} tokL modL (p : Proc)
    (model_dir model_id : str) (dev : device) :
  let present := path_exists p model_dir in
  let source := if present then model_dir else model_id in
  let device_map := if present then None else Some dev in
  let options := if present then None else Some remote_options in
  ∃ p' : Proc,
    loader_cell Model tokL modL model_dir model_id dev p
    = (tokL source device_map ≫= λ _, modL source options, p')
    ∧ trace p'
      = trace p
        ++ EvLoadTokenizer source device_map
           :: match tokL source device_map with
              | Ok _ => [EvLoadModel source options]
              | Raise _ => []
              end
    ∧ (Forall (plain_load_from model_dir) (drop (length (trace p)) (trace p'))
       ↔ present = true)
    ∧ tokenizer p'
      = match tokL source device_map with
        | Ok tk => Some tk
        | Raise _ => tokenizer p
        end.
Proof.
  intros present source device_map options.
  pose proof (loader_cell_run tokL modL p model_dir model_id dev) as Hrun.
  cbv zeta in Hrun. fold present source device_map options in Hrun.
  assert (∀ rest, Forall (plain_load_from model_dir)
                    (EvLoadTokenizer source device_map :: rest)
                  → present = true) as Hfwd.
  { intros rest H. apply Forall_cons_1 in H as [[H|H] _]; [|done].
    subst source device_map. by destruct present. }
  assert (present = true →
          plain_load_from model_dir (EvLoadTokenizer source device_map)
          ∧ plain_load_from model_dir (EvLoadModel source options)) as Hbwd.
  { intros Hp. subst source device_map options. rewrite Hp.
    split; [by left | by right]. }
  destruct (tokL source device_map) as [tk|e] eqn:Etok.
  - eexists. split; [exact Hrun|]. simpl.
    rewrite <- (assoc_L (++)), drop_app_length. split; [done|].
    split; [|done]. split; [apply Hfwd|].
    intros [H1 H2]%Hbwd. by repeat apply Forall_cons_2.
  - eexists. split; [exact Hrun|]. simpl.
    rewrite drop_app_length. split; [done|].
    split; [|done]. split; [apply Hfwd|].
    intros [H1 H2]%Hbwd. by repeat apply Forall_cons_2.
Qed.

(** A directory that exists but holds no model: the failure of the first
    load is the outcome of the cell. *)
Example loader_cell_failure :
  fst (loader_cell unit sample_load_tokenizer sample_load_model
         (lit "model") model_name cpu (sample_proc SideLeft false true))
  = Raise (LibraryError 404).
Proof. vm_compute. reflexivity. Qed.

(** ** Tokenization adapter *)

Lemma tokenize_run (p : Proc) (tk : Tokenizer) (example : Example)
    (text eos : str) :
  tokenizer p = Some tk → eos_token tk = Some eos → format example = Ok text →
  tokenize example p
  = (Ok (pad_encoding (padding_side tk) 512 (convert_tokens_to_ids tk eos)
           (truncate_ids (truncation_side tk) 512 (encode tk text))),
     with_event (EvTokenizerCall (Some eos) text)
       (with_tokenizer (Some (set_pad_token (Some eos) tk))
          (with_event (EvSetPadToken (Some eos)) p))).
Proof.
  intros Htk Heos Hfmt.
  unfold tokenize, assign_pad_token, call_tokenizer, get_tokenizer, emit,
    bind_tokenizer, lift, mbind, M_bind.
  rewrite Htk. simpl. rewrite Htk, Heos, Hfmt. simpl.
  unfold tokenizer_call, pad_token_id. simpl. done.
Qed.

Lemma truncate_ids_length sd n (ids : list Z) :
  length (truncate_ids sd n ids) = length ids `min` n.
Proof.
  destruct sd; simpl; [rewrite length_drop | rewrite length_take]; lia.
Qed.

Lemma truncate_ids_short sd n (ids : list Z) :
  length ids ≤ n → truncate_ids sd n ids = ids.
Proof.
  intros H. destruct sd; simpl.
  - by replace (length ids - n) with 0 by lia.
  - by apply take_ge.
Qed.

Lemma pad_encoding_length sd n pad_id (ids : list Z) :
  length ids ≤ n →
  length (input_ids (pad_encoding sd n pad_id ids)) = n
  ∧ length (attention_mask (pad_encoding sd n pad_id ids)) = n.
Proof.
  intros H. destruct sd; simpl; rewrite !length_app, !length_replicate; lia.
Qed.

(** C2, as the code has it.  With the tokenizer loaded and holding an
    end-of-sequence token, [tokenize] yields 512 ids and a mask of 512 for
    every example that has the two fields.  More than 512 ids are cut down
    to 512 on the tokenizer's truncation side; fewer are filled up with the
    end-of-sequence id on the tokenizer's padding side, which is the right
    only when the tokenizer's [padding_side] says so. *)
Theorem tokenize_length (p : Proc) (tk : Tokenizer) (example : Example)
    (text eos : str) :
  tokenizer p = Some tk → eos_token tk = Some eos → format example = Ok text →
  ∃ enc p',
    tokenize example p = (Ok enc, p')
    ∧ length (input_ids enc) = 512
    ∧ length (attention_mask enc) = 512
    ∧ let ids := encode tk text in
      let eos_id := convert_tokens_to_ids tk eos in
      (512 < length ids →
       input_ids enc = match truncation_side tk with
                       | SideRight => take 512 ids
                       | SideLeft => drop (length ids - 512) ids
                       end)
      ∧ (length ids ≤ 512 →
         input_ids enc = match padding_side tk with
                         | SideRight => ids ++ replicate (512 - length ids) eos_id
                         | SideLeft => replicate (512 - length ids) eos_id ++ ids
                         end)
      ∧ (length ids ≤ 512 → padding_side tk = SideRight →
         right_padded 512 eos_id ids (input_ids enc)).
Proof.
  intros Htk Heos Hfmt. eexists _, _.
  split; [by apply tokenize_run|].
  pose proof (truncate_ids_length (truncation_side tk) 512 (encode tk text))
    as Hlen.
  destruct (pad_encoding_length (padding_side tk) 512
              (convert_tokens_to_ids tk eos)
              (truncate_ids (truncation_side tk) 512 (encode tk text)))
    as [H1 H2]; [lia|].
  split; [done|]. split; [done|]. cbv zeta. split; [|split].
  - intros Hlong. unfold pad_encoding.
    replace (512 - length (truncate_ids (truncation_side tk) 512
                             (encode tk text))) with 0 by lia.
    destruct (padding_side tk), (truncation_side tk); simpl;
      by rewrite ?app_nil_r.
  - intros Hshort. rewrite truncate_ids_short by done.
    by destruct (padding_side tk).
  - intros Hshort Hside. rewrite truncate_ids_short by done.
    by rewrite Hside.
Qed.

Lemma tokenize_length_witness :
  ∃ enc,
    fst (tokenize sample_row (sample_proc SideRight false false)) = Ok enc
    ∧ length (input_ids enc) = 512.
Proof.
  destruct (tokenize_length (sample_proc SideRight false false)
              (sample_tokenizer SideRight) sample_row
              (lit "### Instruction:" ++ nl ++ lit "Move all files from A to B"
               ++ nl ++ nl ++ lit "### Output:" ++ nl ++ lit "mv A/* B/")
              (lit "<eos>"))
    as (enc & p' & Hrun & Hlen & _).
  - reflexivity.
  - reflexivity.
  - vm_compute. reflexivity.
  - exists enc. rewrite Hrun. split; [reflexivity | exact Hlen].
Defined.

(** C2 as stated fails: on a tokenizer whose [padding_side] is the left
    (the library's Llama tokenizer classes declare it so), the ids of the
    sample row come last and the fill comes first. *)
Lemma tokenize_right_padded_counterexample :
  ∃ enc text,
    format sample_row = Ok text
    ∧ fst (tokenize sample_row (sample_proc SideLeft false false)) = Ok enc
    ∧ length (encode (sample_tokenizer SideLeft) text) < 512
    ∧ ¬ right_padded 512 1114112 (encode (sample_tokenizer SideLeft) text)
          (input_ids enc).
Proof.
  eexists _, _. split; [vm_compute; reflexivity|].
  split; [vm_compute; reflexivity|]. split; [vm_compute; lia|].
  unfold right_padded. vm_compute. discriminate.
Qed.

(** Without an end-of-sequence token the pad token stays unset and the
    padding request is refused. *)
Example tokenize_without_eos :
  fst (tokenize sample_row
         (with_tokenizer
            (Some {| encode := λ s, Z.of_N <$> s;
                     decode := λ ids _, Z.to_N <$> ids;
                     convert_tokens_to_ids := λ _, 0%Z;
                     eos_token := None; pad_token := None;
                     padding_side := SideRight; truncation_side := SideRight;
                     model_max_length := 2048 |})
            (sample_proc SideRight false false)))
  = Raise ValueError.
Proof. vm_compute. reflexivity. Qed.

Lemma pad_assignments_app (tr1 tr2 : list event) :
  pad_assignments (tr1 ++ tr2) = pad_assignments tr1 + pad_assignments tr2.
Proof.
  induction tr1 as [|[] tr1 IH]; simpl; rewrite ?IH; done.
Qed.

Lemma tokenizer_calls_app (tr1 tr2 : list event) :
  tokenizer_calls (tr1 ++ tr2) = tokenizer_calls tr1 + tokenizer_calls tr2.
Proof.
  induction tr1 as [|[] tr1 IH]; simpl; rewrite ?IH; done.
Qed.

Lemma dataset_map_tokenize (rows : list Example) (p : Proc) (tk : Tokenizer)
    (eos : str) :
  tokenizer p = Some tk → eos_token tk = Some eos →
  Forall (λ row, ∃ text, format row = Ok text) rows →
  ∃ out p' texts,
    dataset_map tokenize rows p = (Ok out, p')
    ∧ length out = length rows
    ∧ Forall2 (λ row text, format row = Ok text) rows texts
    ∧ trace p' = trace p ++ (texts ≫= tokenize_events eos)
    ∧ (rows ≠ [] → tokenizer p' = Some (set_pad_token (Some eos) tk)).
Proof.
  intros Htk Heos Hrows. revert p tk Htk Heos.
  induction Hrows as [|row rows [text Hfmt] _ IH]; intros p tk Htk Heos.
  - exists [], p, []. simpl. rewrite app_nil_r. repeat split; done.
  - simpl. unfold mbind at 1, M_bind at 1.
    rewrite (tokenize_run p tk row text eos Htk Heos Hfmt).
    set (p1 := with_event _ _).
    destruct (IH p1 (set_pad_token (Some eos) tk) eq_refl Heos)
      as (out & p' & texts & Hrun & Hlen & Htexts & Htrace & Htok).
    unfold mbind, M_bind. rewrite Hrun.
    eexists _, p', (text :: texts). split; [done|].
    split; [simpl; by rewrite Hlen|]. split; [by constructor|]. split.
    + rewrite Htrace. subst p1. simpl. by rewrite <- !(assoc_L (++)).
    + intros _. destruct rows as [|row' rows'].
      * apply Forall2_nil_inv_l in Htexts. subst texts.
        simpl in Hrun. injection Hrun as _ <-. done.
      * by rewrite Htok.
Qed.

(** C7, as the code has it.  [tokenize] assigns the end-of-sequence token to
    [tokenizer.pad_token] itself, in every call, before it calls the
    tokenizer: over a dataset the trace gains, row by row, one assignment
    followed by one tokenizer call that finds the pad token equal to the
    end-of-sequence token.  Nothing has to set the pad token beforehand,
    and the tokenizer is left with it set. *)
Theorem tokenize_assigns_pad_token (rows : list Example) (p : Proc)
    (tk : Tokenizer) (eos : str) :
  tokenizer p = Some tk → eos_token tk = Some eos →
  Forall (λ row, ∃ text, format row = Ok text) rows →
  ∃ out p' texts,
    dataset_map tokenize rows p = (Ok out, p')
    ∧ Forall2 (λ row text, format row = Ok text) rows texts
    ∧ trace p' = trace p ++ (texts ≫= tokenize_events eos)
    ∧ pad_assignments (texts ≫= tokenize_events eos) = length rows
    ∧ tokenizer_calls (texts ≫= tokenize_events eos) = length rows
    ∧ Forall (call_sees_pad (Some eos)) (texts ≫= tokenize_events eos)
    ∧ (rows ≠ [] →
       tokenizer p' = Some (set_pad_token (Some eos) tk)
       ∧ (tokenizer p' ≫= pad_token) = eos_token tk).
Proof.
  intros Htk Heos Hrows.
  destruct (dataset_map_tokenize rows p tk eos Htk Heos Hrows)
    as (out & p' & texts & Hrun & Hlen & Htexts & Htrace & Htok).
  exists out, p', texts. split; [done|]. split; [done|]. split; [done|].
  apply Forall2_length in Htexts. rewrite Htexts.
  split; [|split; [|split]].
  - clear. induction texts as [|t texts IH]; [done|].
    rewrite bind_cons, pad_assignments_app, IH. done.
  - clear. induction texts as [|t texts IH]; [done|].
    rewrite bind_cons, tokenizer_calls_app, IH. done.
  - clear. induction texts as [|t texts IH]; [constructor|].
    rewrite bind_cons. apply Forall_app. split; [|done].
    by repeat constructor.
  - intros H. rewrite (Htok H), Heos. done.
Qed.

Lemma tokenize_assigns_pad_token_witness :
  ∃ out p',
    dataset_map tokenize [sample_row; sample_row]
      (sample_proc SideLeft false false) = (Ok out, p')
    ∧ pad_assignments (trace p') = 2
    ∧ (tokenizer p' ≫= pad_token) = Some (lit "<eos>").
Proof.
  destruct (tokenize_assigns_pad_token [sample_row; sample_row]
              (sample_proc SideLeft false false) (sample_tokenizer SideLeft)
              (lit "<eos>"))
    as (out & p' & texts & Hrun & _ & Htrace & Hpad & _ & _ & Htok).
  - reflexivity.
  - reflexivity.
  - repeat constructor; eexists; vm_compute; reflexivity.
  - exists out, p'. split; [exact Hrun|]. split.
    + rewrite Htrace. exact Hpad.
    + destruct Htok as [_ Htok]; [discriminate|]. exact Htok.
Defined.

(** C7 as stated fails: on a tokenizer that comes without pad token and
    that nothing initialises, mapping [tokenize] over two rows succeeds, and
    the pad token is assigned twice, once inside each call, not once before
    the first. *)
Lemma pad_token_set_once_counterexample :
  let p := sample_proc SideLeft false false in
  let eos := lit "<eos>" in
  let text := lit "### Instruction:" ++ nl
              ++ lit "Move all files from A to B" ++ nl ++ nl
              ++ lit "### Output:" ++ nl ++ lit "mv A/* B/" in
  (tokenizer p ≫= pad_token) = None
  ∧ pad_assignments (trace p) = 0
  ∧ ∃ out p',
      dataset_map tokenize [sample_row; sample_row] p = (Ok out, p')
      ∧ trace p' = [EvSetPadToken (Some eos); EvTokenizerCall (Some eos) text;
                    EvSetPadToken (Some eos); EvTokenizerCall (Some eos) text]
      ∧ pad_assignments (trace p') = 2
      ∧ pad_assignments (trace p') ≠ 1.
Proof.
  cbv zeta. split; [reflexivity|]. split; [reflexivity|].
  eexists _, _. split; [vm_compute; reflexivity|].
  split; [vm_compute; reflexivity|]. split; [vm_compute; reflexivity|].
  vm_compute. discriminate.
Qed.

(** * Further properties of the notebook's code *)

(** ** Loss curve cell *)

Lemma omap_cons_match {A B} (f : A → option B) x l :
  omap f (x :: l)
  = match f x with Some y => y :: omap f l | None => omap f l end.
Proof. done. Qed.

Lemma logged_loss_cons {V} (key : str) (log : gmap (list N) V) logs :
  logged key (lit "loss") (log :: logs)
  = if decide (has_loss log) then
      v ← log_getitem log key;
      rest ← logged key (lit "loss") logs;
      mret (v :: rest)
    else logged key (lit "loss") logs.
Proof. done. Qed.

(** X1.  The [losses] comprehension never raises: it is the list of the
    ["loss"] values of the entries that have one, in the order of the log. *)
Theorem losses_total {V} (logs : list (gmap (list N) V)) :
  ∃ ys, losses logs = Ok ys
        ∧ ys = omap (λ log, log !! lit "loss") logs
        ∧ length ys = length (filter has_loss logs).
Proof.
  exists (omap (λ log, log !! lit "loss") logs).
  split; [|split; [done|]].
  { unfold losses. induction logs as [|log logs IH]; [done|].
    rewrite logged_loss_cons, omap_cons_match. unfold has_loss.
    destruct (decide (is_Some (log !! lit "loss"))) as [[v Hv]|Hn].
    - unfold log_getitem. rewrite Hv, IH. done.
    - rewrite IH. apply eq_None_not_Some in Hn. by rewrite Hn. }
  induction logs as [|log logs IH]; [done|].
  rewrite omap_cons_match, filter_cons. unfold has_loss at 1.
  destruct (decide (is_Some (log !! lit "loss"))) as [[v Hv]|Hn].
  - rewrite Hv. simpl. by rewrite IH.
  - apply eq_None_not_Some in Hn. by rewrite Hn.
Qed.

(** X2.  The [steps] comprehension returns exactly when every entry that
    has a ["loss"] also has a ["step"]; otherwise it raises
    [KeyError("step")]. *)
Theorem steps_defined {V} (logs : list (gmap (list N) V)) :
  ((∃ xs, steps logs = Ok xs)
   ↔ Forall (λ log, has_loss log → is_Some (log !! lit "step")) logs)
  ∧ ∀ e, steps logs = Raise e → e = KeyError (lit "step").
Proof.
  unfold steps. induction logs as [|log logs [IH1 IH2]].
  - split; [|done]. split; [constructor | by exists []].
  - rewrite logged_loss_cons.
    destruct (decide (has_loss log)) as [Hl|Hn].
    + unfold log_getitem. destruct (log !! lit "step") as [x|] eqn:Ex.
      * rewrite result_bind_Ok.
        destruct (logged (lit "step") (lit "loss") logs) as [xs|e'] eqn:E.
        -- split; [|done]. split; [|by eexists].
           intros _. constructor; [by eauto|]. apply IH1. by eexists.
        -- split.
           ++ split; [by intros [? ?]|].
              intros [_ H]%Forall_cons_1. apply IH1 in H as [? ?]. done.
           ++ intros e [= <-]. by apply IH2.
      * split.
        -- split; [by intros [? ?]|].
           intros [H _]%Forall_cons_1. destruct (H Hl) as [? ?]. congruence.
        -- by intros e [= <-].
    + split; [|done]. rewrite IH1. split.
      * intros H. by constructor.
      * by intros [_ H]%Forall_cons_1.
Qed.

(** X3.  When the cell gets as far as [plt.plot], the two sequences have
    the same length and their points are, pair by pair, the step and the
    loss of one and the same log entry. *)
Theorem loss_curve_points {V} (logs : list (gmap (list N) V)) xs ys :
  loss_curve logs = Ok (xs, ys) →
  length xs = length ys
  ∧ zip xs ys = omap curve_point (filter has_loss logs).
Proof.
  unfold loss_curve, steps, losses. revert xs ys.
  induction logs as [|log logs IH]; intros xs ys.
  - intros [= <- <-]. done.
  - rewrite !logged_loss_cons, filter_cons.
    destruct (decide (has_loss log)) as [[y Hy]|Hn]; [|apply IH].
    unfold log_getitem. rewrite Hy.
    destruct (log !! lit "step") as [x|] eqn:Ex; [|done].
    rewrite !result_bind_Ok.
    destruct (logged (lit "step") (lit "loss") logs) as [xs'|] eqn:E1;
      [|done].
    destruct (logged (lit "loss") (lit "loss") logs) as [ys'|] eqn:E2;
      [|done].
    intros [= <- <-]. destruct (IH xs' ys' eq_refl) as [IHl IHz].
    split; [simpl; by rewrite IHl|].
    rewrite omap_cons_match. unfold curve_point at 1. rewrite Ex, Hy.
    simpl. by rewrite IHz.
Qed.

Lemma steps_defined_witness : ∃ xs, steps sample_logs = Ok xs.
Proof.
  apply (steps_defined sample_logs).
  repeat constructor; intros _; vm_compute; eauto.
Defined.

Lemma loss_curve_points_witness :
  zip [10%Z] [5%Z] = omap curve_point (filter has_loss sample_logs).
Proof.
  apply (loss_curve_points sample_logs [10%Z] [5%Z]).
  vm_compute. reflexivity.
Defined.

(** ** Prompt and extraction together *)

Lemma occurs_trans (a b c : str) : occurs a b → occurs b c → occurs a c.
Proof.
  intros (x & y & ->) (x' & y' & ->). exists (x' ++ x), (y ++ y').
  by rewrite <- !(assoc_L (++)).
Qed.

Lemma occurs_app_l (sub s t : str) : occurs sub s → occurs sub (s ++ t).
Proof.
  intros (x & y & ->). exists x, (y ++ t). by rewrite <- !(assoc_L (++)).
Qed.

Lemma occurs_app_r (sub s t : str) : occurs sub t → occurs sub (s ++ t).
Proof.
  intros (x & y & ->). exists (s ++ x), y. by rewrite <- !(assoc_L (++)).
Qed.

Lemma occurs_hashes_marker (s : str) :
  occurs marker_output s → occurs marker_hashes s.
Proof.
  apply occurs_trans. by exists [], (lit " Output:").
Qed.

Lemma occurs_marker_hash_marker (s : str) :
  occurs (hash :: marker_output) s → occurs marker_output s.
Proof.
  apply occurs_trans. by exists [hash], [].
Qed.

(** A character that [sub] does not hold stops every occurrence that
    begins in front of it. *)
Lemma find_app_barrier (sub x t : str) (c : char) :
  ¬ occurs sub x → c ∉ sub →
  find sub (x ++ c :: t) = (λ i, length x + i) <$> find sub (c :: t).
Proof.
  intros Hx Hc. induction x as [|d x IH].
  - simpl app. by destruct (find sub (c :: t)).
  - rewrite occurs_cons in Hx. rewrite <- app_comm_cons, find_cons_false.
    + rewrite IH by tauto. by destruct (find sub (c :: t)).
    + apply startswith_false. intros [k Hk].
      change (d :: x ++ c :: t) with ((d :: x) ++ c :: t) in Hk.
      apply app_eq_inv in Hk as [(k0 & Hk & _)|(k0 & Hk & Hk')].
      * apply Hx. left. by exists k0.
      * destruct k0 as [|c0 k0].
        -- apply Hx. left. exists []. by rewrite Hk, !app_nil_r.
        -- injection Hk' as <- _. apply Hc. rewrite Hk.
           apply elem_of_app. right. by left.
Qed.

Lemma find_marker_prompt (ins rest : str) :
  ¬ occurs marker_output ins →
  find marker_output
    ((instruction_header ++ ins ++ nl ++ nl) ++ marker_output ++ rest)
  = Some (length (instruction_header ++ ins ++ nl ++ nl)).
Proof.
  intros Hins. unfold instruction_header.
  rewrite <- !(assoc_L (++)).
  change (nl ++ ins ++ nl ++ nl ++ marker_output ++ rest)
    with (10%N :: ins ++ 10%N :: nl ++ marker_output ++ rest).
  rewrite (find_app_barrier marker_output (lit "### Instruction:"));
    [|by apply find_None|by vm_compute; intros H; repeat (inversion H as [|? ? ? H']; clear H; rename H' into H)].
  rewrite find_cons_false by done.
  rewrite (find_app_barrier marker_output ins);
    [|done|by vm_compute; intros H; repeat (inversion H as [|? ? ? H']; clear H; rename H' into H)].
  rewrite find_cons_false by done.
  change (nl ++ marker_output ++ rest) with (10%N :: marker_output ++ rest).
  rewrite find_cons_false by done.
  assert (find marker_output (marker_output ++ rest) = Some 0) as ->.
  { apply find_Some. rewrite take_0. split; [|lia]. split; [by exists rest|].
    intros; simpl; lia. }
  simpl. f_equal. rewrite !length_app. simpl. lia.
Qed.

Lemma first_at_prompt (ins rest : str) :
  ¬ occurs marker_output ins →
  first_at marker_output
    ((instruction_header ++ ins ++ nl ++ nl) ++ marker_output ++ rest)
    (instruction_header ++ ins ++ nl ++ nl).
Proof.
  intros H. apply (find_marker_prompt ins rest) in H.
  apply find_Some in H as [H _]. by rewrite take_app_length in H.
Qed.

Lemma strip_nl (s : str) : strip (nl ++ s) = strip s.
Proof. done. Qed.

(** The decoded text is a prompt of the notebook's shape followed by a
    completion. *)
Lemma main_output_prompt (ins completion : str) :
  ¬ occurs marker_output ins →
  ¬ occurs (hash :: marker_output) completion →
  main_output ((instruction_header ++ ins ++ nl ++ nl) ++ marker_output
               ++ nl ++ completion)
  = Ok (strip (before marker_hashes (strip completion))).
Proof.
  intros Hins Hc.
  rewrite main_output_first by (by apply first_at_prompt).
  rewrite before_marker_cut, strip_nl; [done|].
  change (nl ++ completion) with (10%N :: completion).
  rewrite occurs_cons. intros [[k Hk]|H]; [done|by apply Hc].
Qed.

Lemma format_fields (example : Example) (ins out : str) :
  example !! col_instruction = Some ins →
  example !! col_output = Some out →
  format example
  = Ok ((instruction_header ++ ins ++ nl ++ nl) ++ marker_output ++ nl ++ out).
Proof.
  intros H1 H2. unfold format, fstring, getitem. rewrite H1, H2.
  rewrite !result_bind_Ok. unfold mret, result_ret, instruction_header.
  by rewrite app_nil_r, <- !(assoc_L (++)).
Qed.

(** X4.  [format] returns a text exactly for the rows that have both
    columns; a row without the instruction column raises [KeyError] for
    that column, whether or not the output column is there, and a row that
    lacks only the output column raises [KeyError] for the output column. *)
Theorem format_missing_column (example : Example) :
  ((∃ text, format example = Ok text)
   ↔ is_Some (example !! col_instruction) ∧ is_Some (example !! col_output))
  ∧ (example !! col_instruction = None →
     format example = Raise (KeyError col_instruction))
  ∧ (is_Some (example !! col_instruction) → example !! col_output = None →
     format example = Raise (KeyError col_output)).
Proof.
  unfold format, fstring, getitem.
  destruct (example !! col_instruction) as [ins|] eqn:E1;
    destruct (example !! col_output) as [out|] eqn:E2;
    rewrite ?result_bind_Ok.
  - split; [|split; [done|by intros _ ?]].
    split; [by eauto|]. intros _. by eexists.
  - split; [|split; [done|done]].
    split; [by intros [? ?]|]. by intros [_ [? ?]].
  - split; [|split; [done|by intros [? ?]]].
    split; [by intros [? ?]|]. by intros [[? ?] _].
  - split; [|split; [done|by intros [? ?]]].
    split; [by intros [? ?]|]. by intros [[? ?] _].
Qed.

Lemma format_missing_column_witness :
  format (delete col_instruction sample_row)
  = Raise (KeyError col_instruction).
Proof.
  apply (format_missing_column (delete col_instruction sample_row)).
  vm_compute. reflexivity.
Defined.

(** X5.  Extraction undoes [format]: on the text [format] makes of a row
    whose instruction holds no ["### Output:"] and whose output holds no
    ["###"], the expression of [runExample] returns the output, stripped. *)
Theorem format_then_extract (example : Example) (ins out : str) :
  example !! col_instruction = Some ins →
  example !! col_output = Some out →
  ¬ occurs marker_output ins →
  ¬ occurs marker_hashes out →
  format example ≫= main_output = Ok (strip out).
Proof.
  intros H1 H2 Hins Hout.
  rewrite (format_fields example ins out H1 H2), result_bind_Ok.
  rewrite main_output_prompt; [|done|].
  - unfold before.
    assert (find marker_hashes (strip out) = None) as ->.
    { apply find_None. by intros H%strip_occurs. }
    f_equal. apply strip_id.
    by destruct (strip_spec out) as (_ & _ & _ & _ & _ & H).
  - by intros H%occurs_marker_hash_marker%occurs_hashes_marker.
Qed.

Lemma format_then_extract_witness :
  format sample_row ≫= main_output = Ok (lit "mv A/* B/").
Proof.
  apply (format_then_extract sample_row (lit "Move all files from A to B")
           (lit "mv A/* B/")).
  - vm_compute. reflexivity.
  - vm_compute. reflexivity.
  - apply find_None. vm_compute. reflexivity.
  - apply find_None. vm_compute. reflexivity.
Defined.

(** X6.  When the decoded text is a prompt of the notebook's shape
    followed by a completion, the instruction holding no ["### Output:"] and
    the completion no ["#### Output:"], the answer of [runExample] is the
    completion stripped, cut before its first ["###"] and stripped again:
    nothing of the instruction reaches it. *)
Theorem runExample_prompt_answer {Model} generate (model : Model) prompt p p'
    (ins completion : str) :
  generated_text Model generate model prompt p
  = (Ok ((instruction_header ++ ins ++ nl ++ nl) ++ marker_output ++ nl
         ++ completion), p') →
  ¬ occurs marker_output ins →
  ¬ occurs (hash :: marker_output) completion →
  runExample Model generate model prompt p
  = (Ok (strip (before marker_hashes (strip completion))), p').
Proof.
  intros Hgen Hins Hc.
  by rewrite (runExample_generated _ _ _ _ _ _ Hgen), main_output_prompt.
Qed.

Lemma runExample_prompt_answer_witness :
  fst (runExample unit (sample_generate (lit "mv A/* B/" ++ nl ++ lit "###"))
         tt sample_prompt (sample_proc SideLeft false false))
  = Ok (lit "mv A/* B/").
Proof.
  assert (generated_text unit
            (sample_generate (lit "mv A/* B/" ++ nl ++ lit "###")) tt
            sample_prompt (sample_proc SideLeft false false)
          = (Ok ((instruction_header ++ lit "Move all files from A to B"
                  ++ nl ++ nl) ++ marker_output ++ nl
                 ++ lit "mv A/* B/" ++ nl ++ lit "###"),
             with_event (EvTokenizerCall None sample_prompt)
               (sample_proc SideLeft false false))) as Hgen
    by (vm_compute; reflexivity).
  rewrite (runExample_prompt_answer _ _ _ _ _ _ _ Hgen).
  - vm_compute. reflexivity.
  - apply find_None. vm_compute. reflexivity.
  - apply find_None. vm_compute. reflexivity.
Defined.

Lemma strip_part (s : str) : occurs (strip s) s.
Proof.
  destruct (strip_spec s) as (ws1 & ws2 & E & _). by exists ws1, ws2.
Qed.

Lemma before_part (sep s : str) : occurs (before sep s) s.
Proof.
  unfold before. destruct (find sep s) as [i|] eqn:E.
  - apply find_first_at in E as [_ E].
    by exists [], (sep ++ drop (i + length sep) s).
  - exists [], []. by rewrite app_nil_r.
Qed.

Lemma main_output_Ok (text answer : str) :
  main_output text = Ok answer →
  ∃ pre rest,
    text = pre ++ marker_output ++ rest
    ∧ first_at marker_output text pre
    ∧ answer = strip (before marker_hashes (strip (before marker_output rest))).
Proof.
  intros H. destruct (find marker_output text) as [i|] eqn:E.
  - apply find_first_at in E as [Hfirst E].
    remember (take i text) as pre eqn:Hpre.
    remember (drop (i + length marker_output) text) as rest eqn:Hrest.
    clear Hpre Hrest. subst text. exists pre, rest.
    split; [done|]. split; [done|].
    rewrite main_output_first in H by done. by apply Ok_inj in H.
  - apply find_None in E. by rewrite main_output_no_marker in H.
Qed.

(** X7.  An answer is never made up: whenever the extraction returns, the
    answer is a contiguous part of the decoded text, taken from behind its
    first ["### Output:"]. *)
Theorem main_output_part (text answer : str) :
  main_output text = Ok answer →
  ∃ pre rest,
    text = pre ++ marker_output ++ rest
    ∧ first_at marker_output text pre
    ∧ occurs answer rest
    ∧ length answer + length marker_output ≤ length text.
Proof.
  intros (pre & rest & E & Hfirst & ->)%main_output_Ok.
  exists pre, rest. split; [done|]. split; [done|].
  assert (occurs (strip (before marker_hashes
                           (strip (before marker_output rest)))) rest) as H.
  { eapply occurs_trans; [apply strip_part|].
    eapply occurs_trans; [apply before_part|].
    eapply occurs_trans; [apply strip_part|]. apply before_part. }
  split; [done|]. destruct H as (x & y & Hr).
  rewrite E. rewrite Hr at 2. rewrite !length_app. lia.
Qed.

Lemma main_output_part_witness :
  occurs (lit "mv A/* B/")
    (sample_prompt ++ lit " mv A/* B/ " ++ nl ++ lit "### done").
Proof.
  destruct (main_output_part
              (sample_prompt ++ lit " mv A/* B/ " ++ nl ++ lit "### done")
              (lit "mv A/* B/"))
    as (pre & rest & E & _ & H & _).
  - vm_compute. reflexivity.
  - rewrite E. by do 2 apply occurs_app_r.
Defined.

(** X8.  The extraction cannot be applied to its own result: an answer
    holds no ["### Output:"], so extracting from it raises IndexError. *)
Theorem main_output_twice (text answer : str) :
  main_output text = Ok answer →
  ¬ occurs marker_output answer
  ∧ main_output answer = Raise IndexError.
Proof.
  intros (pre & rest & _ & _ & ->)%main_output_Ok.
  assert (¬ occurs marker_output
              (strip (before marker_hashes
                        (strip (before marker_output rest))))) as H.
  { intros H%occurs_hashes_marker%strip_occurs.
    by apply before_no_sep in H. }
  split; [done|]. by apply main_output_no_marker.
Qed.

Lemma main_output_twice_witness :
  main_output (lit "mv A/* B/") = Raise IndexError.
Proof.
  apply (main_output_twice
           (sample_prompt ++ lit "mv A/* B/" ++ nl ++ lit "###")).
  vm_compute. reflexivity.
Defined.

(** ** Tokenizing the dataset *)

Lemma format_Ok_iff (example : Example) :
  (∃ text, format example = Ok text)
  ↔ is_Some (example !! col_instruction) ∧ is_Some (example !! col_output).
Proof.
  unfold format, fstring, getitem.
  destruct (example !! col_instruction) as [ins|];
    destruct (example !! col_output) as [out|]; rewrite ?result_bind_Ok.
  - split; [by eauto|]. intros _. by eexists.
  - split; [by intros [? ?]|]. by intros [_ [? ?]].
  - split; [by intros [? ?]|]. by intros [[? ?] _].
  - split; [by intros [? ?]|]. by intros [[? ?] _].
Qed.

Lemma format_Raise (example : Example) e :
  format example = Raise e →
  ∃ key, e = KeyError key
         ∧ (key = col_instruction ∨ key = col_output)
         ∧ example !! key = None.
Proof.
  unfold format, fstring, getitem.
  destruct (example !! col_instruction) as [ins|] eqn:E1;
    destruct (example !! col_output) as [out|] eqn:E2;
    rewrite ?result_bind_Ok; intros [= <-].
  - exists col_output. eauto.
  - exists col_instruction. eauto.
  - exists col_instruction. eauto.
Qed.

Lemma tokenize_raise (p : Proc) (tk : Tokenizer) (example : Example) e :
  tokenizer p = Some tk → format example = Raise e →
  tokenize example p
  = (Raise e,
     with_tokenizer (Some (set_pad_token (eos_token tk) tk))
       (with_event (EvSetPadToken (eos_token tk)) p)).
Proof.
  intros Htk Hfmt.
  unfold tokenize, assign_pad_token, call_tokenizer, get_tokenizer, emit,
    bind_tokenizer, lift, mbind, M_bind.
  rewrite Htk. simpl. by rewrite Htk, Hfmt.
Qed.

(** X9.  On a row that lacks one of the two columns, [tokenize] raises
    [KeyError] for a column the row does not have; by then it has already
    assigned the pad token, and it has not called the tokenizer. *)
Theorem tokenize_missing_column (p : Proc) (tk : Tokenizer)
    (example : Example) :
  tokenizer p = Some tk →
  ¬ (is_Some (example !! col_instruction) ∧ is_Some (example !! col_output)) →
  ∃ key p',
    tokenize example p = (Raise (KeyError key), p')
    ∧ (key = col_instruction ∨ key = col_output)
    ∧ example !! key = None
    ∧ trace p' = trace p ++ [EvSetPadToken (eos_token tk)]
    ∧ tokenizer_calls (trace p') = tokenizer_calls (trace p)
    ∧ (tokenizer p' ≫= pad_token) = eos_token tk.
Proof.
  intros Htk Hmiss. destruct (format example) as [text|e] eqn:Hfmt.
  { destruct Hmiss. apply format_Ok_iff. by eexists. }
  destruct (format_Raise example e Hfmt) as (key & -> & Hkey & Hnone).
  exists key. eexists. split; [by apply tokenize_raise|].
  split; [done|]. split; [done|]. split; [done|]. split; [|done].
  simpl. rewrite tokenizer_calls_app. simpl. lia.
Qed.

Lemma tokenize_missing_column_witness :
  ∃ key,
    fst (tokenize (delete col_output sample_row)
           (sample_proc SideLeft false false))
    = Raise (KeyError key)
    ∧ delete col_output sample_row !! key = None.
Proof.
  destruct (tokenize_missing_column (sample_proc SideLeft false false)
              (sample_tokenizer SideLeft) (delete col_output sample_row))
    as (key & p' & Hrun & _ & Hkey & _).
  - reflexivity.
  - intros [_ [v Hv]]. vm_compute in Hv. discriminate.
  - exists key. rewrite Hrun. split; [reflexivity | exact Hkey].
Defined.

(** X10.  [dataset.map(tokenize)], run on a loaded tokenizer that has an
    end-of-sequence token, returns exactly when every row has both columns.
    What it returns keeps the rows in their order, one result per row, and
    every result has 512 ids and a mask of 512. *)
Theorem tokenized_dataset_rows (rows : list Example) (p : Proc)
    (tk : Tokenizer) (eos : str) :
  tokenizer p = Some tk → eos_token tk = Some eos →
  ((∃ out p', dataset_map tokenize rows p = (Ok out, p'))
   ↔ Forall (λ row : Example, is_Some (row !! col_instruction)
                               ∧ is_Some (row !! col_output)) rows)
  ∧ ∀ out p', dataset_map tokenize rows p = (Ok out, p') →
      out.*1 = rows
      ∧ Forall (λ r, length (input_ids r.2) = 512
                     ∧ length (attention_mask r.2) = 512) out.
Proof.
  revert p tk. induction rows as [|row rows IH]; intros p tk Htk Heos.
  - split.
    + split; [constructor|]. intros _. by exists [], p.
    + intros out p' [= <- <-]. split; [done|constructor].
  - simpl dataset_map. unfold mbind at 1 3, M_bind at 1 3.
    destruct (format row) as [text|e] eqn:Hfmt.
    + rewrite (tokenize_run p tk row text eos Htk Heos Hfmt).
      set (p1 := with_event _ _). set (enc := pad_encoding _ _ _ _).
      destruct (IH p1 (set_pad_token (Some eos) tk) eq_refl Heos)
        as [IH1 IH2].
      unfold mbind, M_bind.
      destruct (dataset_map tokenize rows p1) as [[out'|e'] p2] eqn:Hrest.
      * split.
        -- split; [|intros _; by eexists _, _].
           intros _. constructor; [apply format_Ok_iff; by eexists|].
           apply IH1. by eexists _, _.
        -- intros out p' [= <- <-].
           destruct (IH2 out' p2 eq_refl) as [Hrows Hlen].
           split; [by rewrite fmap_cons, Hrows|]. constructor; [|done].
           simpl. subst enc. apply pad_encoding_length.
           rewrite truncate_ids_length. lia.
      * split; [|by intros out p' [= ]].
        split; [by intros (? & ? & [= ])|].
        intros [_ H]%Forall_cons_1. apply IH1 in H as (? & ? & [= ]).
    + rewrite (tokenize_raise p tk row e Htk Hfmt).
      split; [|by intros out p' [= ]].
      split; [by intros (? & ? & [= ])|].
      intros [H _]%Forall_cons_1. apply format_Ok_iff in H as [? H].
      congruence.
Qed.

Lemma tokenized_dataset_rows_witness :
  ∃ out p',
    dataset_map tokenize [sample_row; sample_row]
      (sample_proc SideRight false false) = (Ok out, p').
Proof.
  apply (tokenized_dataset_rows [sample_row; sample_row]
           (sample_proc SideRight false false) (sample_tokenizer SideRight)
           (lit "<eos>")).
  - reflexivity.
  - reflexivity.
  - repeat constructor; eexists; vm_compute; reflexivity.
Defined.

(** ** The directory name of the model *)

(** X11.  In the mounted branch the model id contributes one path
    component to [model_dir]: as long as the id and without any ['/'].  The
    price is that model ids which differ only in ['/'] against ['_'] get the
    same directory, and the same [HF_HOME]. *)
Theorem resolver_cell_leaf (p : Proc) (mount model_id : str) :
  ismount p mount = true →
  (∃ leaf,
     fst (resolver_cell mount model_id p)
     = Ok (lit "/Volumes/" ++ mount ++ lit "/VSWorkspace/" ++ leaf)
     ∧ length leaf = length model_id
     ∧ (47%N ∉ leaf))
  ∧ (∀ model_id',
       slash_to_underscore <$> model_id' = slash_to_underscore <$> model_id →
       resolver_cell mount model_id' p = resolver_cell mount model_id p).
Proof.
  intros Hm. split.
  - exists (slash_to_underscore <$> model_id).
    rewrite resolver_cell_run, Hm. split; [done|].
    split; [by rewrite length_fmap|].
    intros (c & Hc & _)%list_elem_of_fmap. unfold slash_to_underscore in Hc.
    by destruct (N.eqb_spec c 47).
  - intros model_id' H. by rewrite !resolver_cell_run, Hm, H.
Qed.

Lemma resolver_cell_leaf_witness :
  resolver_cell mount_point (lit "deepseek-ai_deepseek-coder-1.3b-base")
    (sample_proc SideLeft true false)
  = resolver_cell mount_point model_name (sample_proc SideLeft true false).
Proof.
  apply (resolver_cell_leaf (sample_proc SideLeft true false) mount_point
           model_name).
  - reflexivity.
  - vm_compute. reflexivity.
Defined.

(** ** What a formatted text tells apart *)

(** X12.  From the text [format] makes, the two fields can be told again
    whenever the instruction holds no ["### Output:"]: two rows with such
    instructions and the same formatted text have the same instruction and
    the same output. *)
Theorem format_injective (example1 example2 : Example)
    (ins1 out1 ins2 out2 : str) :
  example1 !! col_instruction = Some ins1 →
  example1 !! col_output = Some out1 →
  example2 !! col_instruction = Some ins2 →
  example2 !! col_output = Some out2 →
  ¬ occurs marker_output ins1 →
  ¬ occurs marker_output ins2 →
  format example1 = format example2 →
  ins1 = ins2 ∧ out1 = out2.
Proof.
  intros Hi1 Ho1 Hi2 Ho2 Hn1 Hn2.
  rewrite (format_fields _ _ _ Hi1 Ho1), (format_fields _ _ _ Hi2 Ho2).
  intros E%Ok_inj.
  pose proof (find_marker_prompt ins1 (nl ++ out1) Hn1) as F1.
  pose proof (find_marker_prompt ins2 (nl ++ out2) Hn2) as F2.
  rewrite E, F2 in F1. apply (inj Some) in F1.
  apply app_inj_1 in E as [E1 E2]; [|done].
  apply app_inv_head in E1. apply app_inj_2 in E1 as [E1 _]; [|done].
  apply app_inv_head, app_inv_head in E2. done.
Qed.

Lemma format_injective_witness :
  lit "Move all files from A to B" = lit "Move all files from A to B"
  ∧ lit "mv A/* B/" = lit "mv A/* B/".
Proof.
  apply (format_injective sample_row
           (<[lit "source" := lit "manual"]> sample_row)).
  - vm_compute. reflexivity.
  - vm_compute. reflexivity.
  - vm_compute. reflexivity.
  - vm_compute. reflexivity.
  - apply find_None. vm_compute. reflexivity.
  - apply find_None. vm_compute. reflexivity.
  - vm_compute. reflexivity.
Defined.

(** Without that condition the text is ambiguous: the second header may
    belong to the instruction of one row and be the header of another. *)
Example format_ambiguous :
  format {[ col_instruction := lit "a" ++ nl ++ nl ++ lit "### Output:"
                               ++ nl ++ lit "b";
            col_output := lit "c" ]}
  = format {[ col_instruction := lit "a";
              col_output := lit "b" ++ nl ++ nl ++ lit "### Output:"
                            ++ nl ++ lit "c" ]}.
Proof. vm_compute. reflexivity. Qed.
